(** * disc-flight-charts: the image download pipeline

    A shallow embedding of [download_disc_images.py] and the properties of
    its task selector, reference extractor, image normaliser, dispatcher
    and persistence sink.

    Python [str] values are sequences of Unicode code points, SQLite cells
    are values of one of the five storage classes, the network, the markup
    parser and the imaging library are an explicit [World] of oracles, and
    the thread pool is the order in which the futures complete. *)

From Stdlib Require Import String Ascii.
From stdpp Require Import base numbers list gmap.
From Stdlib Require Import Lia.

Local Open Scope N_scope.

(** ** Python strings and bytes *)

(** A [str] is a sequence of code points, a [bytes] a sequence of octets. *)
Abbreviation pystr := (list N) (only parsing).
Abbreviation pybytes := (list N) (only parsing).

Definition of_string (s : string) : pystr :=
  map N_of_ascii (list_ascii_of_string s).

(** [s.startswith(p)] *)
Fixpoint startswith (p s : pystr) : bool :=
  match p, s with
  | [], _ => true
  | _ :: _, [] => false
  | a :: p', b :: s' => (a =? b) && startswith p' s'
  end.

(** [s.endswith(p)] *)
Definition endswith (p s : pystr) : bool :=
  startswith (rev p) (rev s).

(** Truth value of a [str] or [bytes] object, and of an optional one
    ([None] is false, an empty sequence is false). *)
Definition truthy (s : list N) : bool :=
  match s with [] => false | _ :: _ => true end.

Definition truthy_opt (o : option (list N)) : bool :=
  match o with None => false | Some s => truthy s end.

(** ** [sanitize_filename] *)

(** The character class of the first substitution: the nine characters
    less-than, greater-than, colon, double quote (code point 34), slash,
    backslash, bar, question mark and star. *)
Definition reserved_chars : list N :=
  of_string "<>:" ++ [34] ++ of_string "/\|?*".

Definition is_reserved (c : N) : bool :=
  bool_decide (c ∈ reserved_chars).

(** The class [\s] of a [str] pattern: the code points for which
    [str.isspace] holds. *)
Definition is_space (c : N) : bool :=
  ((9 <=? c) && (c <=? 13)) || ((28 <=? c) && (c <=? 32))
  || (c =? 133) || (c =? 160) || (c =? 5760)
  || ((8192 <=? c) && (c <=? 8202))
  || (c =? 8232) || (c =? 8233) || (c =? 8239) || (c =? 8287)
  || (c =? 12288).

Definition underscore : N := 95.

(** The first [re.sub]: every match of the class is one character and is
    replaced by an underscore. *)
Definition sub_reserved (name : pystr) : pystr :=
  map (fun c => if is_reserved c then underscore else c) name.

(** [re.sub(r'\s+', '_', s)]: the scan goes left to right and every match
    is a maximal run; [in_run] tells that the previous character belonged
    to the run being replaced. *)
Fixpoint sub_space_from (in_run : bool) (s : pystr) : pystr :=
  match s with
  | [] => []
  | c :: t =>
      if is_space c
      then (if in_run then sub_space_from true t
            else underscore :: sub_space_from true t)
      else c :: sub_space_from false t
  end.

Definition sub_space (s : pystr) : pystr := sub_space_from false s.

Definition sanitize_filename (name : pystr) : pystr :=
  let sanitized := sub_reserved name in
  let sanitized := sub_space sanitized in
  sanitized.

(** A string free of reserved characters and of whitespace. *)
Definition clean (s : pystr) : Prop :=
  Forall (fun c => is_reserved c = false ∧ is_space c = false) s.

(** ** The catalog: SQLite values and the [disc_data] table *)

(** A cell holds a value of one of the five storage classes; a [REAL] is
    carried as its bit pattern, which no operation here inspects. *)
Inductive value :=
| VNull
| VInt (n : Z)
| VReal (bits : Z)
| VText (s : pystr)
| VBlob (b : pybytes).

(** A nullable [TEXT] cell as a value. *)
Definition text_cell (c : option pystr) : value :=
  match c with None => VNull | Some s => VText s end.

(** SQL's three-valued logic: [None] is the unknown truth value. *)
Definition sql_and (a b : option bool) : option bool :=
  match a, b with
  | Some false, _ | _, Some false => Some false
  | Some true, Some true => Some true
  | _, _ => None
  end.

Definition sql_or (a b : option bool) : option bool :=
  match a, b with
  | Some true, _ | _, Some true => Some true
  | Some false, Some false => Some false
  | _, _ => None
  end.

Definition sql_not (a : option bool) : option bool := negb <$> a.

(** [v IS NULL] and [v IS NOT NULL] are never unknown. *)
Definition sql_is_null (v : value) : option bool :=
  Some (match v with VNull => true | _ => false end).

Definition sql_is_not_null (v : value) : option bool :=
  Some (match v with VNull => false | _ => true end).

(** [v = 'lit'] for a text literal: unknown on [NULL]; values of another
    storage class are never equal to a text (a literal that does not look
    like a number stays a text under every column affinity, and the empty
    literal is the only one the queries use). *)
Definition sql_eq_text (v : value) (lit : pystr) : option bool :=
  match v with
  | VNull => None
  | VText s => Some (bool_decide (s = lit))
  | _ => Some false
  end.

(** A row of [disc_data]. The key [id] is an integer, the descriptive
    columns and the weblink are nullable texts, [img] is the column the
    schema guard adds and takes what is stored in it; [other_columns]
    stands for the remaining columns of the table. *)
Record row := {
  id : Z;
  model : option pystr;
  manufacturer : option pystr;
  weblink : option pystr;
  img : value;
  other_columns : list value
}.

(** The dictionary built from a selected row: the four selected columns. *)
Record disc := {
  disc_id : Z;
  disc_model : option pystr;
  disc_manufacturer : option pystr;
  disc_weblink : option pystr
}.

Definition dict_of_row (r : row) : disc :=
  {| disc_id := id r; disc_model := model r;
     disc_manufacturer := manufacturer r; disc_weblink := weblink r |}.

(** The [WHERE] clause of the selector query. *)
Definition where_needs_image (r : row) : option bool :=
  sql_and
    (sql_and (sql_is_not_null (text_cell (weblink r)))
             (sql_not (sql_eq_text (text_cell (weblink r)) [])))
    (sql_or (sql_is_null (img r)) (sql_eq_text (img r) [])).

(** A row is returned when the clause is true (not false, not unknown). *)
Definition selected (r : row) : bool :=
  match where_needs_image r with Some true => true | _ => false end.

Definition get_discs_to_process (db : list row) : list disc :=
  map dict_of_row (filter (fun r => selected r = true) db).

(** [UPDATE disc_data SET img = ? WHERE id = ?] with a [bytes] parameter,
    which is stored as a [BLOB]. *)
Definition set_img (r : row) (v : value) : row :=
  {| id := id r; model := model r; manufacturer := manufacturer r;
     weblink := weblink r; img := v; other_columns := other_columns r |}.

Definition update_db_image (db : list row) (disc_id : Z) (img_data : pybytes) : list row :=
  map (fun r => if (id r =? disc_id)%Z then set_img r (VBlob img_data) else r) db.

(** The backup directory as a map from file name to content; opening a
    file for writing replaces what was there. *)
Definition save_to_file (files : gmap (list N) (list N)) (filename : pystr) (data : pybytes)
  : gmap (list N) (list N) :=
  <[filename := data]> files.

(** ** The world outside the program *)

(** What [requests.get] does for a URL: it raises (no connection, timeout,
    malformed URL) or delivers a response. *)
Inductive http_result :=
| RequestException
| Response (status_code : Z) (content : pybytes).

(** [response.raise_for_status()] raises for the statuses 400 to 599. *)
Definition raises_for_status (status_code : Z) : bool :=
  (400 <=? status_code)%Z && (status_code <? 600)%Z.

(** What parsing a page and [select_one("a.img-holder img.img-fluid")]
    give: the parser raises, no element matches, or an element matches,
    with its [src] attribute if it has one. *)
Inductive select_result :=
| ParserError
| NoElement
| Element (src : option pystr).

(** The two components of [urlparse] the program reads. *)
Record ParseResult := { scheme : pystr; netloc : pystr }.

(** A decoded image: its mode and its pixel data. *)
Record image := { mode : string; pixels : pybytes }.

(** The collaborators of the pipeline. [None] stands for a raised
    exception. [db_write_raises] and [file_write_raises] tell for which
    record id the catalog update fails and for which file name the backup
    write fails. *)
Record World := {
  requests_get : pystr → http_result;
  select_one : pybytes → select_result;
  urlparse : pystr → option ParseResult;
  image_open : pybytes → option image;
  image_convert : image → string → option image;
  image_save : image → string → bool → option pybytes;
  db_write_raises : Z → bool;
  file_write_raises : pystr → bool
}.

(** ** Logging *)

Inductive log_level := INFO | WARNING | ERROR.

Inductive log_message :=
| FailedToExtract (weblink : pystr)
| FailedToDownload (img_url : pystr)
| Processing (disc_id : Z)
| NoImageUrlFound
| SuccessfullyProcessed (size : nat)
| ErrorProcessingDisc (disc_id : Z)
| NoDiscsToProcess
| Completed (success_count fail_count : nat).

Definition log := list (log_level * log_message).

(** The result of a call that may raise. *)
Inductive outcome (A : Type) :=
| Raised
| Returned (a : A).
Arguments Raised {A}.
Arguments Returned {A} a.

(** ** The pipeline *)

Section Pipeline.

Variable W : World.

(** Lines 97 to 102: the relative forms of an extracted reference.
    [None] is the [ValueError] of [urlparse], which the caller's
    handler catches. *)
Definition resolve_reference (weblink img_url : pystr) : option pystr :=
  if startswith (of_string "//") img_url then
    Some (of_string "https:" ++ img_url)
  else if startswith (of_string "/") img_url then
    match urlparse W weblink with
    | Some parsed => Some (scheme parsed ++ of_string "://" ++ netloc parsed ++ img_url)
    | None => None
    end
  else Some img_url.

Definition extract_image_url (weblink : pystr) : option pystr * log :=
  let failed := (None, [(ERROR, FailedToExtract weblink)]) in
  match requests_get W weblink with
  | RequestException => failed
  | Response status_code content =>
      if raises_for_status status_code then failed
      else
        match select_one W content with
        | ParserError => failed
        | NoElement => (None, [])
        | Element src =>
            if truthy_opt src then
              match resolve_reference weblink (default [] src) with
              | Some img_url => (Some img_url, [])
              | None => failed
              end
            else (None, [])
        end
  end.

(** Lines 124 to 129: the mode of the image before it is saved. *)
Definition normalize_mode (img : image) : option image :=
  if bool_decide (mode img ∈ ["RGBA"; "LA"; "P"]%string) then
    if String.eqb (mode img) "P" then image_convert W img "RGBA"
    else Some img
  else if negb (String.eqb (mode img) "RGB") then image_convert W img "RGB"
  else Some img.

Definition download_and_convert_image (img_url : pystr) : option pybytes * log :=
  let failed := (None, [(ERROR, FailedToDownload img_url)]) in
  match requests_get W img_url with
  | RequestException => failed
  | Response status_code content =>
      if raises_for_status status_code then failed
      else
        match image_open W content with
        | None => failed
        | Some img =>
            match normalize_mode img with
            | None => failed
            | Some img =>
                match image_save W img "PNG" true with
                | None => failed
                | Some png => (Some png, [])
                end
            end
        end
  end.

(** [process_disc]. The file name is built first, and [re.sub] raises a
    [TypeError] on [None]: a record without manufacturer or model makes
    the call raise. A [None] weblink makes [requests.get] raise inside
    the handler of [extract_image_url]. *)
Definition process_disc (d : disc) : outcome (Z * option pybytes * option pystr) * log :=
  let disc_id := disc_id d in
  match disc_manufacturer d, disc_model d with
  | Some manufacturer, Some model =>
      let filename :=
        sanitize_filename manufacturer ++ of_string "_"
        ++ sanitize_filename model ++ of_string ".png" in
      let l0 := [(INFO, Processing disc_id)] in
      let '(img_url, l1) :=
        match disc_weblink d with
        | Some weblink => extract_image_url weblink
        | None => (None, [(ERROR, FailedToExtract [])])
        end in
      if negb (truthy_opt img_url) then
        (Returned (disc_id, None, None), l0 ++ l1 ++ [(WARNING, NoImageUrlFound)])
      else
        let '(png_bytes, l2) := download_and_convert_image (default [] img_url) in
        if negb (truthy_opt png_bytes) then
          (Returned (disc_id, None, None), l0 ++ l1 ++ l2)
        else
          (Returned (disc_id, png_bytes, Some filename),
           l0 ++ l1 ++ l2
           ++ [(INFO, SuccessfullyProcessed (length (default [] png_bytes)))])
  | _, _ => (Raised, [])
  end.

(** ** The dispatcher and the persistence sink *)

Record state := {
  db : list row;
  files : gmap (list N) (list N);
  success_count : nat;
  fail_count : nat;
  main_log : log
}.

Definition count_success (st : state) (db' : list row) (files' : gmap (list N) (list N)) : state :=
  {| db := db'; files := files'; success_count := S (success_count st);
     fail_count := fail_count st; main_log := main_log st |}.

Definition count_fail (st : state) (db' : list row) (l : log) : state :=
  {| db := db'; files := files st; success_count := success_count st;
     fail_count := S (fail_count st); main_log := main_log st ++ l |}.

Definition add_log (st : state) (l : log) : state :=
  {| db := db st; files := files st; success_count := success_count st;
     fail_count := fail_count st; main_log := main_log st ++ l |}.

(** Lines 216 to 233: the body of the loop over the completed futures,
    for the future of the record [d]. The two writes are inside the
    [try]: a write that raises ends the body in the handler. *)
Definition handle_future (st : state) (d : disc) : state :=
  match fst (process_disc d) with
  | Raised => count_fail st (db st) [(ERROR, ErrorProcessingDisc (disc_id d))]
  | Returned (disc_id', png_bytes, filename) =>
      if truthy_opt png_bytes && truthy_opt filename then
        if db_write_raises W disc_id' then
          count_fail st (db st) [(ERROR, ErrorProcessingDisc (disc_id d))]
        else
          let db' := update_db_image (db st) disc_id' (default [] png_bytes) in
          if file_write_raises W (default [] filename) then
            count_fail st db' [(ERROR, ErrorProcessingDisc (disc_id d))]
          else
            count_success st db'
              (save_to_file (files st) (default [] filename) (default [] png_bytes))
      else count_fail st (db st) []
  end.

(** The loop over [as_completed]: [order] is the order in which the
    futures complete. *)
Definition drain (order : list disc) (st : state) : state :=
  fold_left handle_future order st.

Definition initial_state (db0 : list row) (files0 : gmap (list N) (list N)) : state :=
  {| db := db0; files := files0; success_count := 0; fail_count := 0;
     main_log := [] |}.

(** [main], after the schema guard (the [img] column is part of [row]).
    [order] is the completion order of the futures submitted for the
    selected records. *)
Definition main (db0 : list row) (files0 : gmap (list N) (list N)) (order : list disc) : state :=
  let discs := get_discs_to_process db0 in
  let st := initial_state db0 files0 in
  match discs with
  | [] => add_log st [(INFO, NoDiscsToProcess)]
  | _ :: _ =>
      let st := drain order st in
      add_log st [(INFO, Completed (success_count st) (fail_count st))]
  end.

End Pipeline.

(** ** A model of [urllib.parse.urlparse] *)

(** The scheme and the network location as [urlsplit] computes them:
    leading control characters and spaces are stripped, tabs and line
    breaks removed, a scheme is split off at the first colon when it
    starts with an ASCII letter and consists of scheme characters, and a
    rest that starts with two slashes has its network location up to the
    first slash, question mark or hash. An unbalanced bracket in the
    network location raises. The further validation of a bracketed
    address and the check of a non-ASCII network location under
    normalisation are left out. *)
Definition is_ascii_upper (c : N) : bool := (65 <=? c) && (c <=? 90).
Definition is_ascii_lower (c : N) : bool := (97 <=? c) && (c <=? 122).
Definition is_ascii_digit (c : N) : bool := (48 <=? c) && (c <=? 57).

Definition is_scheme_char (c : N) : bool :=
  is_ascii_upper c || is_ascii_lower c || is_ascii_digit c
  || bool_decide (c ∈ of_string "+-.").

Definition ascii_lower (c : N) : N :=
  if is_ascii_upper c then c + 32 else c.

(** [(s[:i], s[i:])] for the first index [i] whose character satisfies
    [stop], the whole string and the empty one when there is none. *)
Fixpoint span_until (stop : N → bool) (s : pystr) : pystr * pystr :=
  match s with
  | [] => ([], [])
  | c :: t =>
      if stop c then ([], s)
      else let '(a, b) := span_until stop t in (c :: a, b)
  end.

Fixpoint lstrip (strip : N → bool) (s : pystr) : pystr :=
  match s with
  | [] => []
  | c :: t => if strip c then lstrip strip t else s
  end.

Definition colon : N := 58.
Definition slash : N := 47.

Definition split_scheme (url : pystr) : pystr * pystr :=
  match span_until (fun c => c =? colon) url with
  | (c0 :: before, _ :: after) =>
      if (is_ascii_upper c0 || is_ascii_lower c0)
         && forallb is_scheme_char (c0 :: before)
      then (map ascii_lower (c0 :: before), after)
      else ([], url)
  | _ => ([], url)
  end.

Definition py_urlparse (url : pystr) : option ParseResult :=
  let url := lstrip (fun c => c <=? 32) url in
  let url := filter (fun c => c ∉ [9; 10; 13]) url in
  let '(scheme, url) := split_scheme url in
  match url with
  | 47 :: 47 :: rest =>
      let netloc := fst (span_until (fun c => bool_decide (c ∈ of_string "/?#")) rest) in
      let has_open := bool_decide (91 ∈ netloc) in
      let has_close := bool_decide (93 ∈ netloc) in
      if (has_open && negb has_close) || (has_close && negb has_open) then None
      else Some {| scheme := scheme; netloc := netloc |}
  | _ => Some {| scheme := scheme; netloc := [] |}
  end.

(** ** A small world for the worked examples *)

Module Demo.

Definition lookup_url {A} (table : list (string * A)) (dflt : A) (url : pystr) : A :=
  match list_find (fun e => of_string (fst e) = url) table with
  | Some (_, e) => snd e
  | None => dflt
  end.

(** Five product pages (one of them also reachable over plain http) and
    the images they point to. *)
Definition serve {A} (url : string) (a : A) : string * A := (url, a).

Definition web : list (string * http_result) :=
  [ serve "https://example.com/path/page" (Response 200 [1]);
    serve "http://example.com/path/page" (Response 200 [1]);
    serve "https://example.com/path/rooted" (Response 200 [2]);
    serve "https://example.com/path/absolute" (Response 200 [3]);
    serve "https://example.com/path/bare" (Response 200 [4]);
    serve "https://example.com/path/gone" (Response 200 [5]);
    serve "https://example.com/path/broken" (Response 200 [6]);
    serve "https://example.com/path/missing" (Response 404 []);
    serve "https://cdn.example.com/x.webp" (Response 200 [10]);
    serve "https://example.com/img/x.webp" (Response 200 [11]);
    serve "https://other.com/x.webp" (Response 200 [12]);
    serve "https://other.com/gone.webp" (Response 404 []);
    serve "https://other.com/broken.webp" (Response 200 [13])  ].

Definition pages (content : pybytes) : select_result :=
  match content with
  | [1] => Element (Some (of_string "//cdn.example.com/x.webp"))
  | [2] => Element (Some (of_string "/img/x.webp"))
  | [3] => Element (Some (of_string "https://other.com/x.webp"))
  | [5] => Element (Some (of_string "https://other.com/gone.webp"))
  | [6] => Element (Some (of_string "https://other.com/broken.webp"))
  | _ => NoElement
  end.

Definition pictures (content : pybytes) : option image :=
  match content with
  | [10] => Some {| mode := "LA"; pixels := [7; 255] |}
  | [11] => Some {| mode := "P"; pixels := [3] |}
  | [12] => Some {| mode := "CMYK"; pixels := [1; 2; 3; 4] |}
  | _ => None
  end.

Definition world : World :=
  {| requests_get := lookup_url web RequestException;
     select_one := pages;
     urlparse := py_urlparse;
     image_open := pictures;
     image_convert := fun img m => Some {| mode := m; pixels := pixels img |};
     image_save := fun img fmt optimize =>
       if String.eqb fmt "PNG" then Some (of_string "PNG" ++ pixels img) else None;
     db_write_raises := fun _ => false;
     file_write_raises := fun _ => false |}.

Definition text (s : string) : option pystr := Some (of_string s).

Definition new_row (i : Z) (mf mo : string) (link : option pystr) (image : value) : row :=
  {| id := i; model := text mo; manufacturer := text mf; weblink := link;
     img := image; other_columns := [] |}.

(** A catalog with five candidates (two succeed, one page lacks the
    markup, one image is gone, one image is corrupt), one record that
    already has its image and one without a weblink. *)
Definition catalog : list row :=
  [ new_row 1 "Acme" "Sky Rider" (text "https://example.com/path/page") VNull;
    new_row 2 "Acme" "Wind/Cutter" (text "https://example.com/path/rooted") (VText []);
    new_row 3 "Birdie" "Flat" (text "https://example.com/path/bare") VNull;
    new_row 4 "Birdie" "Gone" (text "https://example.com/path/gone") VNull;
    new_row 5 "Birdie" "Broken" (text "https://example.com/path/broken") VNull;
    new_row 6 "Acme" "Done" (text "https://example.com/path/absolute") (VBlob [1; 2]);
    new_row 7 "Acme" "Unlinked" None VNull ].

End Demo.

(** ** Derived notions used in the statements *)

(** The selector's condition in the words of the data model: a weblink
    that is present and not empty, an image that is absent or empty. *)
Definition has_weblink (r : row) : Prop :=
  ∃ s, weblink r = Some s ∧ s ≠ [].

Definition img_empty (r : row) : Prop :=
  img r = VNull ∨ img r = VText [].

Definition eligible (r : row) : Prop := has_weblink r ∧ img_empty r.

(** The image column holds something: neither [NULL] nor the empty text. *)
Definition img_populated (r : row) : Prop :=
  img r ≠ VNull ∧ img r ≠ VText [].

(** Every row with the key [i] holds a non-empty blob. *)
Definition stored (i : Z) (db : list row) : Prop :=
  ∀ r, r ∈ db → id r = i → ∃ c b, img r = VBlob (c :: b).

(** The task delivers an image: [process_disc] returns bytes and a file
    name that pass the test of line 220. *)
Definition delivers (W : World) (d : disc) : bool :=
  match fst (process_disc W d) with
  | Raised => false
  | Returned (_, png_bytes, filename) => truthy_opt png_bytes && truthy_opt filename
  end.

(** The task delivers and neither of its two writes raises. *)
Definition succeeds (W : World) (d : disc) : bool :=
  match fst (process_disc W d) with
  | Raised => false
  | Returned (disc_id', png_bytes, filename) =>
      truthy_opt png_bytes && truthy_opt filename
      && negb (db_write_raises W disc_id')
      && negb (file_write_raises W (default [] filename))
  end.

(** Later runs of the program on the catalog and the backup directory an
    earlier run left, each in its own world and completion order. *)
Definition rerun (st : state) (run : World * list disc) : state :=
  main (fst run) (db st) (files st) (snd run).

(** Reference resolution as the specification words it: the scheme of the
    origin page in front of a protocol-relative reference. *)
Definition resolve_reference_spec (origin : ParseResult) (img_url : pystr) : pystr :=
  if startswith (of_string "//") img_url then
    scheme origin ++ of_string ":" ++ img_url
  else if startswith (of_string "/") img_url then
    scheme origin ++ of_string "://" ++ netloc origin ++ img_url
  else img_url.

(** The modes with red, green and blue bands and an alpha band. *)
Definition truecolor_with_alpha (m : string) : bool :=
  bool_decide (m ∈ ["RGBA"; "RGBa"]%string).

(** The two ways [extract_image_url] ends without a reference. *)
Definition transport_failed (W : World) (weblink : pystr) : Prop :=
  requests_get W weblink = RequestException
  ∨ ∃ status_code content,
      requests_get W weblink = Response status_code content
      ∧ raises_for_status status_code = true.

Definition not_found (W : World) (weblink : pystr) : Prop :=
  ∃ status_code content,
    requests_get W weblink = Response status_code content
    ∧ raises_for_status status_code = false
    ∧ (select_one W content = NoElement
       ∨ ∃ src, select_one W content = Element src ∧ truthy_opt src = false).

(** The file name [process_disc] builds for a manufacturer and a model. *)
Definition backup_filename (mf mo : pystr) : pystr :=
  sanitize_filename mf ++ of_string "_" ++ sanitize_filename mo ++ of_string ".png".

(** The three ways a call of [process_disc] ends. *)
Inductive process_disc_spec (d : disc) : outcome (Z * option pybytes * option pystr) → Prop :=
| process_raises :
    disc_manufacturer d = None ∨ disc_model d = None →
    process_disc_spec d Raised
| process_fails mf mo :
    disc_manufacturer d = Some mf → disc_model d = Some mo →
    process_disc_spec d (Returned (disc_id d, None, None))
| process_delivers mf mo c png :
    disc_manufacturer d = Some mf → disc_model d = Some mo →
    process_disc_spec d
      (Returned (disc_id d, Some (c :: png), Some (backup_filename mf mo))).

(** ** The schema guard *)

(** The table as the guard sees it: the column names [PRAGMA table_info]
    lists, in order, and the records, each with one cell per column. *)
Record table := {
  columns : list (list N);
  records : list (list value)
}.

(** SQLite compares column names without regard to the case of ASCII
    letters. *)
Definition sqlite_name_eq (a b : pystr) : bool :=
  bool_decide (map ascii_lower a = map ascii_lower b).

(** [ALTER TABLE ... ADD COLUMN name BLOB]: a name the table already has
    is refused ([duplicate column name]); otherwise the column is added
    last and reads [NULL] in every record. *)
Definition alter_table_add_column (t : table) (name : pystr) : outcome table :=
  if existsb (sqlite_name_eq name) (columns t) then Raised
  else Returned {| columns := columns t ++ [name];
                   records := map (fun r => r ++ [VNull]) (records t) |}.

(** The two lines the guard logs. *)
Inductive schema_message := AddingImgColumn | ImgColumnExists.

Definition img_name : pystr := of_string "img".

(** [ensure_img_column]. [None] is a database without the table
    [disc_data]: [PRAGMA table_info] then lists nothing and the
    [ALTER TABLE] raises. The test [not in] compares the names as Python
    strings. *)
Definition ensure_img_column (db : option table) : outcome (table * schema_message) :=
  let columns := match db with Some t => columns t | None => [] end in
  if negb (bool_decide (img_name ∈ columns)) then
    match db with
    | None => Raised
    | Some t =>
        match alter_table_add_column t img_name with
        | Raised => Raised
        | Returned t' => Returned (t', AddingImgColumn)
        end
    end
  else
    match db with
    | Some t => Returned (t, ImgColumnExists)
    | None => Raised
    end.

(** ** What a task writes *)

(** The catalog update of the task is performed: the task delivers and
    the update does not raise. *)
Definition writes_catalog (W : World) (d : disc) : bool :=
  match fst (process_disc W d) with
  | Raised => false
  | Returned (disc_id', png_bytes, filename) =>
      truthy_opt png_bytes && truthy_opt filename
      && negb (db_write_raises W disc_id')
  end.

(** The bytes and the file name a task returns (empty when it returns
    none). *)
Definition delivered_bytes (W : World) (d : disc) : pybytes :=
  match fst (process_disc W d) with
  | Returned (_, Some png_bytes, _) => png_bytes
  | _ => []
  end.

Definition delivered_name (W : World) (d : disc) : pystr :=
  match fst (process_disc W d) with
  | Returned (_, _, Some filename) => filename
  | _ => []
  end.

(** Some task of [order] updates the rows with the key [i]. *)
Definition written_by (W : World) (order : list disc) (i : Z) : bool :=
  existsb (fun d => writes_catalog W d && (disc_id d =? i)%Z) order.

(** What the tasks of [order], one after the other, make of one row. *)
Definition row_after (W : World) (order : list disc) (r : row) : row :=
  fold_left
    (fun r d =>
       if writes_catalog W d && (id r =? disc_id d)%Z
       then set_img r (VBlob (delivered_bytes W d)) else r)
    order r.


(** The handler of [main] is entered for the task: its call raised or one
    of its writes raised. *)
Definition raises_in_main (W : World) (d : disc) : bool :=
  match fst (process_disc W d) with
  | Raised => true
  | Returned (disc_id', png_bytes, filename) =>
      truthy_opt png_bytes && truthy_opt filename
      && (db_write_raises W disc_id'
          || file_write_raises W (default [] filename))
  end.

(** The stages of [download_and_convert_image] all succeed and give
    [png]. *)
Definition converts_to (W : World) (img_url : pystr) (png : pybytes) : Prop :=
  ∃ status_code content img img',
    requests_get W img_url = Response status_code content
    ∧ raises_for_status status_code = false
    ∧ image_open W content = Some img
    ∧ normalize_mode W img = Some img'
    ∧ image_save W img' "PNG" true = Some png.

(** The page is fetched and has an element with the non-empty source
    [src]. *)
Definition page_has_src (W : World) (weblink src : pystr) : Prop :=
  ∃ status_code content,
    requests_get W weblink = Response status_code content
    ∧ raises_for_status status_code = false
    ∧ select_one W content = Element (Some src)
    ∧ src ≠ [].

(** ** The example world with writes that raise *)

Module Faults.

(** The world of the worked examples, with every catalog update raising
    when [db_fault] is set and every backup write raising when
    [file_fault] is set. *)
Definition world (db_fault file_fault : bool) : World :=
  {| requests_get := requests_get Demo.world;
     select_one := select_one Demo.world;
     urlparse := urlparse Demo.world;
     image_open := image_open Demo.world;
     image_convert := image_convert Demo.world;
     image_save := image_save Demo.world;
     db_write_raises := fun _ => db_fault;
     file_write_raises := fun _ => file_fault |}.

(** The task of the first record of the example catalog. *)
Definition sky_rider : disc :=
  dict_of_row (Demo.new_row 1 "Acme" "Sky Rider"
                 (Demo.text "https://example.com/path/page") VNull).

End Faults.

(** The ways [extract_image_url] ends, read off its branches. *)
Inductive extract_spec (W : World) (weblink : pystr) : option (list N) * log → Prop :=
| extract_transport :
    transport_failed W weblink →
    extract_spec W weblink (None, [(ERROR, FailedToExtract weblink)])
| extract_parser status_code content :
    requests_get W weblink = Response status_code content →
    raises_for_status status_code = false →
    select_one W content = ParserError →
    extract_spec W weblink (None, [(ERROR, FailedToExtract weblink)])
| extract_not_found :
    not_found W weblink →
    extract_spec W weblink (None, [])
| extract_unresolved src :
    page_has_src W weblink src →
    resolve_reference W weblink src = None →
    extract_spec W weblink (None, [(ERROR, FailedToExtract weblink)])
| extract_resolved src u :
    page_has_src W weblink src →
    resolve_reference W weblink src = Some u →
    extract_spec W weblink (Some u, []).

(** The extraction stage of [process_disc]: the result and the log of
    [extract_image_url], or of the request that raises on [None]. *)
Definition extraction_stage (W : World) (d : disc) : option (list N) * log :=
  match disc_weblink d with
  | Some weblink => extract_image_url W weblink
  | None => (None, [(ERROR, FailedToExtract [])])
  end.

(** ** The loader's conversions ([newdb.py]) *)

(** [s.strip()]: whitespace is taken off both ends. *)
Definition rstrip (strip : N → bool) (s : pystr) : pystr :=
  rev (lstrip strip (rev s)).

Definition py_strip (s : pystr) : pystr := rstrip is_space (lstrip is_space s).

(** The built-in conversions of a string: [None] is a [ValueError]. A
    float is carried as its bit pattern. *)
Record Conversions := {
  py_int : pystr → option Z;
  py_float : pystr → option Z
}.

(** [parse_int] and [parse_float]; the argument is [None] for a field the
    CSV row lacks. *)
Definition parse_int (C : Conversions) (value : option pystr) : option Z :=
  match value with
  | None => None
  | Some v =>
      if negb (truthy v) || bool_decide (py_strip v = []) then None
      else py_int C (py_strip v)
  end.

Definition parse_float (C : Conversions) (value : option pystr) : option Z :=
  match value with
  | None => None
  | Some v =>
      if negb (truthy v) || bool_decide (py_strip v = []) then None
      else py_float C (py_strip v)
  end.

(** * Properties *)

(** ** Strings *)

Lemma startswith_app p s : startswith p (p ++ s) = true.
Proof.
  induction p as [|c p IH]; simpl; [reflexivity|].
  rewrite N.eqb_refl. exact IH.
Qed.

Lemma startswith_longer p q s :
  startswith p s = false → startswith (p ++ q) s = false.
Proof.
  revert s. induction p as [|a p IH]; intros s; simpl; [discriminate|].
  destruct s as [|b s]; [reflexivity|].
  destruct (a =? b); simpl; [apply IH | reflexivity].
Qed.

Lemma endswith_app p s : endswith p (s ++ p) = true.
Proof. unfold endswith. rewrite rev_app_distr. apply startswith_app. Qed.

Lemma truthy_opt_true o : truthy_opt o = true ↔ ∃ c s, o = Some (c :: s).
Proof.
  destruct o as [[|c s]|]; simpl; split; try discriminate; eauto.
  all: intros (? & ? & ?); discriminate.
Qed.

(** ** The sanitiser *)

Lemma underscore_plain : is_reserved underscore = false ∧ is_space underscore = false.
Proof. split; reflexivity. Qed.

Lemma reserved_not_space c : is_reserved c = true → is_space c = false.
Proof.
  unfold is_reserved. intros H. apply bool_decide_eq_true in H.
  unfold reserved_chars in H. cbn in H.
  repeat (apply elem_of_cons in H as [-> | H]; [reflexivity|]).
  apply elem_of_nil in H. contradiction.
Qed.

Lemma is_space_sub_reserved c :
  is_space (if is_reserved c then underscore else c) = is_space c.
Proof.
  destruct (is_reserved c) eqn:Hc; [|reflexivity].
  rewrite (reserved_not_space c Hc). reflexivity.
Qed.

Lemma sub_space_from_no_space b s :
  Forall (fun c => is_space c = false) (sub_space_from b s).
Proof.
  revert b. induction s as [|c t IH]; intros b; simpl; [constructor|].
  destruct (is_space c) eqn:Hc.
  - destruct b; [apply IH|]. constructor; [reflexivity | apply IH].
  - constructor; [exact Hc | apply IH].
Qed.

Lemma sub_space_from_keeps_unreserved b s :
  Forall (fun c => is_reserved c = false) s →
  Forall (fun c => is_reserved c = false) (sub_space_from b s).
Proof.
  intros H. revert b. induction H as [|c t Hc Ht IH]; intros b; simpl; [constructor|].
  destruct (is_space c).
  - destruct b; [apply IH|]. constructor; [reflexivity | apply IH].
  - constructor; [exact Hc | apply IH].
Qed.

Lemma sub_reserved_unreserved s :
  Forall (fun c => is_reserved c = false) (sub_reserved s).
Proof.
  unfold sub_reserved. induction s as [|c t IH]; simpl; constructor; [|exact IH].
  destruct (is_reserved c) eqn:Hc; [reflexivity | exact Hc].
Qed.

Lemma sanitize_clean s : clean (sanitize_filename s).
Proof.
  unfold clean, sanitize_filename, sub_space.
  apply Forall_and. split.
  - apply sub_space_from_keeps_unreserved, sub_reserved_unreserved.
  - apply sub_space_from_no_space.
Qed.

Lemma sub_reserved_id s :
  Forall (fun c => is_reserved c = false) s → sub_reserved s = s.
Proof.
  unfold sub_reserved. induction 1 as [|c t Hc _ IH]; simpl; [reflexivity|].
  rewrite Hc. f_equal. exact IH.
Qed.

Lemma sub_space_from_id s :
  Forall (fun c => is_space c = false) s → sub_space_from false s = s.
Proof.
  induction 1 as [|c t Hc _ IH]; simpl; [reflexivity|].
  rewrite Hc. f_equal. exact IH.
Qed.

Lemma sanitize_clean_id s : clean s → sanitize_filename s = s.
Proof.
  unfold clean, sanitize_filename, sub_space. intros H.
  apply Forall_and in H as [Hr Hs].
  rewrite sub_reserved_id by exact Hr. apply sub_space_from_id, Hs.
Qed.

Lemma clean_app s t : clean s → clean t → clean (s ++ t).
Proof. unfold clean. intros Hs Ht. apply Forall_app. split; assumption. Qed.

(** A character that is not whitespace cuts the scan in two. *)
Lemma sub_space_from_cut b a c rest :
  is_space c = false →
  sub_space_from b (a ++ c :: rest)
  = sub_space_from b a ++ c :: sub_space_from false rest.
Proof.
  intros Hc. revert b. induction a as [|x a IH]; intros b; simpl.
  - rewrite Hc. reflexivity.
  - destruct (is_space x); [destruct b|]; simpl; rewrite IH; reflexivity.
Qed.

(** Inside a run, the rest of the run produces nothing. *)
Lemma sub_space_from_run ws rest :
  Forall (fun c => is_space c = true) ws →
  (∀ c, head rest = Some c → is_space c = false) →
  sub_space_from true (ws ++ rest) = sub_space_from false rest.
Proof.
  intros Hws Hrest. induction Hws as [|w ws Hw _ IH]; simpl.
  - destruct rest as [|c rest]; [reflexivity|]. simpl.
    rewrite (Hrest c eq_refl). reflexivity.
  - rewrite Hw. exact IH.
Qed.

(** A maximal run, one that neither side continues, gives one underscore. *)
Lemma sub_space_from_maximal_run b a ws rest :
  (a = [] → b = false) →
  (∀ c, last a = Some c → is_space c = false) →
  ws ≠ [] → Forall (fun c => is_space c = true) ws →
  (∀ c, head rest = Some c → is_space c = false) →
  sub_space_from b (a ++ ws ++ rest)
  = sub_space_from b a ++ underscore :: sub_space_from false rest.
Proof.
  intros Hb Ha Hne Hws Hrest. revert b Hb.
  induction a as [|x a IH]; intros b Hb.
  - rewrite (Hb eq_refl). destruct Hws as [|w ws Hw Hws]; [contradiction|].
    simpl. rewrite Hw. f_equal. apply sub_space_from_run; assumption.
  - assert (Hlast : ∀ c, last a = Some c → is_space c = false).
    { intros c Hc. apply Ha. destruct a; [discriminate | exact Hc]. }
    assert (Hx : a = [] → is_space x = false).
    { intros ->. apply Ha. reflexivity. }
    simpl. destruct (is_space x) eqn:Ex.
    + destruct b; simpl; rewrite (IH Hlast); try reflexivity;
        intros ->; specialize (Hx eq_refl); discriminate.
    + simpl. rewrite (IH Hlast); [reflexivity | reflexivity].
Qed.

Lemma sub_reserved_space_run ws :
  Forall (fun c => is_space c = true) ws → sub_reserved ws = ws.
Proof.
  intros H. apply sub_reserved_id. eapply Forall_impl; [exact H|].
  intros c Hc. simpl in Hc. destruct (is_reserved c) eqn:E; [|reflexivity].
  apply reserved_not_space in E. congruence.
Qed.

Lemma last_sub_reserved a c :
  last (sub_reserved a) = Some c → ∃ c0, last a = Some c0 ∧ is_space c0 = is_space c.
Proof.
  unfold sub_reserved. induction a as [|x a IH]; simpl; [discriminate|].
  destruct a as [|y a]; simpl in *.
  - intros [= <-]. exists x. split; [reflexivity|].
    symmetry. apply is_space_sub_reserved.
  - exact IH.
Qed.

Lemma head_sub_reserved a c :
  head (sub_reserved a) = Some c → ∃ c0, head a = Some c0 ∧ is_space c0 = is_space c.
Proof.
  destruct a as [|x a]; simpl; [discriminate|].
  intros [= <-]. exists x. split; [reflexivity|].
  symmetry. apply is_space_sub_reserved.
Qed.

(** What [sanitize_filename] does to each part of its input: a reserved
    character becomes an underscore, a maximal run of whitespace becomes
    one underscore, any other character is kept. *)
Lemma sanitize_reserved a c b :
  is_reserved c = true →
  sanitize_filename (a ++ c :: b)
  = sanitize_filename a ++ underscore :: sanitize_filename b.
Proof.
  intros Hc. unfold sanitize_filename, sub_space, sub_reserved.
  rewrite map_app. simpl. rewrite Hc.
  apply sub_space_from_cut. reflexivity.
Qed.

Lemma sanitize_plain a c b :
  is_reserved c = false → is_space c = false →
  sanitize_filename (a ++ c :: b)
  = sanitize_filename a ++ c :: sanitize_filename b.
Proof.
  intros Hr Hs. unfold sanitize_filename, sub_space, sub_reserved.
  rewrite map_app. simpl. rewrite Hr.
  apply sub_space_from_cut. exact Hs.
Qed.

Lemma sanitize_maximal_run a ws b :
  (∀ c, last a = Some c → is_space c = false) →
  ws ≠ [] → Forall (fun c => is_space c = true) ws →
  (∀ c, head b = Some c → is_space c = false) →
  sanitize_filename (a ++ ws ++ b)
  = sanitize_filename a ++ underscore :: sanitize_filename b.
Proof.
  intros Ha Hne Hws Hb. unfold sanitize_filename, sub_space.
  assert (E : sub_reserved (a ++ ws ++ b) = sub_reserved a ++ ws ++ sub_reserved b).
  { unfold sub_reserved at 1. rewrite !map_app.
    fold (sub_reserved a) (sub_reserved ws) (sub_reserved b).
    rewrite (sub_reserved_space_run ws Hws). reflexivity. }
  rewrite E. apply sub_space_from_maximal_run; try assumption.
  - reflexivity.
  - intros c Hc. apply last_sub_reserved in Hc as (c0 & H0 & <-). apply Ha, H0.
  - intros c Hc. apply head_sub_reserved in Hc as (c0 & H0 & <-). apply Hb, H0.
Qed.

(** ** [process_disc] *)

Lemma process_disc_cases W d : process_disc_spec d (fst (process_disc W d)).
Proof.
  unfold process_disc.
  destruct (disc_manufacturer d) as [mf|] eqn:Emf;
    [|apply process_raises; left; exact Emf].
  destruct (disc_model d) as [mo|] eqn:Emo;
    [|apply process_raises; right; exact Emo].
  destruct (match disc_weblink d with
            | Some weblink => extract_image_url W weblink
            | None => (None, [(ERROR, FailedToExtract [])])
            end) as [img_url l1].
  destruct (truthy_opt img_url); simpl; [|eapply process_fails; eassumption].
  destruct (download_and_convert_image W (default [] img_url)) as [png_bytes l2].
  destruct png_bytes as [[|c png]|]; simpl;
    try (eapply process_fails; eassumption).
  eapply process_delivers; eassumption.
Qed.

Lemma backup_filename_clean mf mo : clean (backup_filename mf mo).
Proof.
  unfold backup_filename.
  repeat apply clean_app; try apply sanitize_clean.
  all: unfold clean; repeat constructor.
Qed.

Lemma backup_filename_truthy mf mo : truthy (backup_filename mf mo) = true.
Proof.
  unfold backup_filename. destruct (sanitize_filename mf); reflexivity.
Qed.

Lemma delivers_spec W d :
  delivers W d = true ↔
  ∃ c png fn, fst (process_disc W d) = Returned (disc_id d, Some (c :: png), Some fn).
Proof.
  unfold delivers. destruct (process_disc_cases W d) as [H|mf mo H1 H2|mf mo c png H1 H2].
  - split; [discriminate | intros (? & ? & ? & ?); discriminate].
  - split; [discriminate | intros (? & ? & ? & ?); discriminate].
  - simpl. rewrite backup_filename_truthy. split; [intros _; eauto | reflexivity].
Qed.

Lemma delivers_false W d :
  delivers W d = false ↔
  fst (process_disc W d) = Raised
  ∨ fst (process_disc W d) = Returned (disc_id d, None, None).
Proof.
  unfold delivers. destruct (process_disc_cases W d) as [H|mf mo H1 H2|mf mo c png H1 H2].
  - split; [left; reflexivity | reflexivity].
  - split; [right; reflexivity | reflexivity].
  - simpl. rewrite backup_filename_truthy.
    split; [discriminate | intros [?|?]; discriminate].
Qed.

Lemma succeeds_delivers W d : succeeds W d = true → delivers W d = true.
Proof.
  unfold succeeds, delivers. destruct (fst (process_disc W d)) as [|[[i png] fn]];
    [discriminate|].
  intros H. apply andb_true_iff in H as [H _]. apply andb_true_iff in H as [H _].
  exact H.
Qed.

(** ** The catalog *)

Lemma selected_eligible r : selected r = true ↔ eligible r.
Proof.
  unfold selected, where_needs_image, eligible, has_weblink, img_empty.
  destruct (weblink r) as [s|]; simpl.
  - destruct (decide (s = [])) as [->|Hs].
    + simpl. split; [discriminate|].
      intros [(s' & [= <-] & Hs') _]. contradiction.
    + rewrite bool_decide_eq_false_2 by exact Hs. simpl.
      destruct (img r) as [| | |t|]; simpl.
      * split; [intros _|reflexivity]. split; [exists s|left]; auto.
      * split; [discriminate|]. intros [_ [?|?]]; discriminate.
      * split; [discriminate|]. intros [_ [?|?]]; discriminate.
      * destruct (decide (t = [])) as [->|Ht].
        -- simpl. split; [intros _|reflexivity]. split; [exists s|right]; auto.
        -- rewrite bool_decide_eq_false_2 by exact Ht. simpl.
           split; [discriminate|]. intros [_ [?|[= ?]]]; [discriminate|contradiction].
      * split; [discriminate|]. intros [_ [?|?]]; discriminate.
  - split; [discriminate|]. intros [(s & ? & _) _]. discriminate.
Qed.

Lemma id_update_db_image db i b :
  map id (update_db_image db i b) = map id db.
Proof.
  unfold update_db_image. rewrite map_map. apply map_ext.
  intros r. destruct (id r =? i)%Z; reflexivity.
Qed.

Lemma populated_not_selected r : img_populated r → selected r = false.
Proof.
  intros [H1 H2]. destruct (selected r) eqn:E; [|reflexivity].
  apply selected_eligible in E as [_ [?|?]]; contradiction.
Qed.

(** A zero-length blob is not the empty text: the query treats such a
    row as one that has its image. *)
Lemma zero_length_blob_not_selected r : img r = VBlob [] → selected r = false.
Proof.
  intros H. apply populated_not_selected. unfold img_populated.
  rewrite H. split; discriminate.
Qed.

Lemma elem_of_update_db_image db i b r' :
  r' ∈ update_db_image db i b ↔
  ∃ r, r ∈ db ∧ r' = (if (id r =? i)%Z then set_img r (VBlob b) else r).
Proof.
  unfold update_db_image. split.
  - intros H. apply list_elem_of_In, in_map_iff in H as (r & H1 & H2).
    exists r. split; [apply list_elem_of_In, H2 | symmetry; exact H1].
  - intros (r & H1 & ->). apply list_elem_of_In, in_map_iff.
    exists r. split; [reflexivity | apply list_elem_of_In, H1].
Qed.

Lemma update_db_image_other db i b r :
  r ∈ db → id r ≠ i → r ∈ update_db_image db i b.
Proof.
  intros Hr Hne. apply elem_of_update_db_image. exists r. split; [exact Hr|].
  destruct (Z.eqb_spec (id r) i); [contradiction | reflexivity].
Qed.

Lemma update_db_image_stores db i c b : stored i (update_db_image db i (c :: b)).
Proof.
  intros r' Hr' Hid. apply elem_of_update_db_image in Hr' as (r & _ & ->).
  destruct (Z.eqb_spec (id r) i) as [E|E]; [eauto|]. contradiction.
Qed.

Lemma update_db_image_keeps_stored db i j c b :
  stored i db → stored i (update_db_image db j (c :: b)).
Proof.
  intros H r' Hr' Hid. apply elem_of_update_db_image in Hr' as (r & Hr & ->).
  destruct (id r =? j)%Z; [eauto|]. apply (H r Hr Hid).
Qed.

Lemma stored_not_selected i db d :
  stored i db → d ∈ get_discs_to_process db → disc_id d ≠ i.
Proof.
  intros H Hd Hid. unfold get_discs_to_process in Hd.
  apply list_elem_of_In, in_map_iff in Hd as (r & <- & Hr).
  apply list_elem_of_In, list_elem_of_filter in Hr as [Hsel Hr].
  destruct (H r Hr Hid) as (c & b & Hb).
  rewrite populated_not_selected in Hsel; [discriminate|].
  unfold img_populated. rewrite Hb. split; discriminate.
Qed.

Lemma NoDup_map_id_eq (db : list row) r r' :
  NoDup (map id db) → r ∈ db → r' ∈ db → id r = id r' → r = r'.
Proof.
  induction db as [|x db IH]; intros Hnd Hr Hr' Hid.
  - apply elem_of_nil in Hr. contradiction.
  - simpl in Hnd. apply NoDup_cons in Hnd as [Hx Hnd].
    assert (Hin : ∀ y, y ∈ db → id y ≠ id x).
    { intros y Hy E. apply Hx. rewrite <- E.
      apply list_elem_of_In, in_map, list_elem_of_In, Hy. }
    apply elem_of_cons in Hr as [->|Hr]; apply elem_of_cons in Hr' as [->|Hr'].
    + reflexivity.
    + symmetry in Hid. apply Hin in Hid; [contradiction | exact Hr'].
    + apply Hin in Hid; [contradiction | exact Hr].
    + apply IH; assumption.
Qed.

(** ** The loop over the completed futures *)

Section Sink.

Variable W : World.

Lemma handle_future_success st d :
  succeeds W d = true →
  ∃ c png fn,
    fst (process_disc W d) = Returned (disc_id d, Some (c :: png), Some fn)
    ∧ handle_future W st d
      = count_success st (update_db_image (db st) (disc_id d) (c :: png))
          (save_to_file (files st) fn (c :: png)).
Proof.
  intros Hs. pose proof (succeeds_delivers _ _ Hs) as Hd.
  apply delivers_spec in Hd as (c & png & fn & E).
  exists c, png, fn. split; [exact E|].
  unfold succeeds in Hs. unfold handle_future. rewrite E in *. simpl in *.
  destruct (truthy fn); [|discriminate]. simpl in *.
  destruct (db_write_raises W (disc_id d)); [discriminate|]. simpl in *.
  destruct (file_write_raises W fn); [discriminate|]. reflexivity.
Qed.

Lemma handle_future_no_delivery st d :
  delivers W d = false →
  db (handle_future W st d) = db st
  ∧ files (handle_future W st d) = files st
  ∧ success_count (handle_future W st d) = success_count st
  ∧ fail_count (handle_future W st d) = S (fail_count st).
Proof.
  unfold delivers, handle_future.
  destruct (fst (process_disc W d)) as [|[[i png] fn]].
  - intros _. repeat split.
  - intros ->. repeat split.
Qed.

(** Whatever the task, a step leaves the catalog as it is or stores a
    non-empty image under the task's id, and adds one to one counter. *)
Lemma handle_future_db st d :
  db (handle_future W st d) = db st
  ∨ (delivers W d = true
     ∧ ∃ c png, db (handle_future W st d)
                = update_db_image (db st) (disc_id d) (c :: png)).
Proof.
  destruct (delivers W d) eqn:Hd.
  - pose proof Hd as Hd'. apply delivers_spec in Hd' as (c & png & fn & E).
    unfold handle_future. rewrite E. simpl.
    destruct (truthy fn); simpl; [|left; reflexivity].
    destruct (db_write_raises W (disc_id d)); [left; reflexivity|].
    right. split; [reflexivity|]. exists c, png.
    destruct (file_write_raises W fn); reflexivity.
  - left. apply handle_future_no_delivery, Hd.
Qed.

Lemma handle_future_failure st d :
  succeeds W d = false →
  files (handle_future W st d) = files st
  ∧ success_count (handle_future W st d) = success_count st
  ∧ fail_count (handle_future W st d) = S (fail_count st).
Proof.
  unfold succeeds, handle_future.
  destruct (fst (process_disc W d)) as [|[[i png] fn]]; [repeat split|].
  destruct (truthy_opt png && truthy_opt fn); simpl; [|repeat split].
  destruct (db_write_raises W i); simpl; [repeat split|].
  destruct (file_write_raises W (default [] fn)); simpl; [repeat split|].
  discriminate.
Qed.

Lemma handle_future_files st d fn :
  (∀ i png fn', fst (process_disc W d) = Returned (i, png, Some fn') → fn' ≠ fn) →
  files (handle_future W st d) !! fn = files st !! fn.
Proof.
  intros H. unfold handle_future.
  destruct (fst (process_disc W d)) as [|[[i png] [fn'|]]] eqn:E; try reflexivity.
  - destruct (truthy_opt png && truthy_opt (Some fn')); [|reflexivity].
    destruct (db_write_raises W i); [reflexivity|].
    destruct (file_write_raises W (default [] (Some fn'))); [reflexivity|].
    simpl. unfold save_to_file. apply lookup_insert_ne. eapply H. reflexivity.
  - rewrite andb_false_r. reflexivity.
Qed.

Lemma drain_cons d order st :
  drain W (d :: order) st = drain W order (handle_future W st d).
Proof. reflexivity. Qed.

Lemma drain_counts order st :
  success_count (drain W order st)
  = (success_count st + length (filter (fun d => succeeds W d = true) order))%nat
  ∧ fail_count (drain W order st)
    = (fail_count st + length (filter (fun d => succeeds W d = false) order))%nat.
Proof.
  revert st. induction order as [|d order IH]; intros st.
  - simpl. split; lia.
  - rewrite drain_cons. destruct (IH (handle_future W st d)) as [IHs IHf].
    rewrite IHs, IHf. rewrite !filter_cons.
    destruct (succeeds W d) eqn:Hs.
    + destruct (handle_future_success st d Hs) as (c & png & fn & _ & ->).
      rewrite decide_True by reflexivity.
      rewrite decide_False by discriminate. simpl. split; lia.
    + destruct (handle_future_failure st d Hs) as (_ & -> & ->).
      rewrite decide_False by discriminate.
      rewrite decide_True by reflexivity. simpl. split; lia.
Qed.

Lemma drain_keeps_stored i order st :
  stored i (db st) → stored i (db (drain W order st)).
Proof.
  revert st. induction order as [|d order IH]; intros st H; [exact H|].
  rewrite drain_cons. apply IH.
  destruct (handle_future_db st d) as [->|(_ & c & png & ->)]; [exact H|].
  apply update_db_image_keeps_stored, H.
Qed.

Lemma drain_stores d order st :
  d ∈ order → succeeds W d = true → stored (disc_id d) (db (drain W order st)).
Proof.
  intros Hd Hs. revert st. induction order as [|x order IH]; intros st.
  - apply elem_of_nil in Hd. contradiction.
  - rewrite drain_cons. apply elem_of_cons in Hd as [<-|Hd].
    + apply drain_keeps_stored.
      destruct (handle_future_success st d Hs) as (c & png & fn & _ & ->).
      simpl. apply update_db_image_stores.
    + apply IH, Hd.
Qed.

Lemma drain_keeps_row r order st :
  (∀ d, d ∈ order → delivers W d = true → disc_id d ≠ id r) →
  r ∈ db st → r ∈ db (drain W order st).
Proof.
  revert st. induction order as [|d order IH]; intros st H Hr; [exact Hr|].
  rewrite drain_cons. apply IH.
  - intros d' Hd'. apply H. right. exact Hd'.
  - destruct (handle_future_db st d) as [->|(Hd & c & png & ->)]; [exact Hr|].
    apply update_db_image_other; [exact Hr|].
    intros E. eapply H; [left | exact Hd | symmetry; exact E].
Qed.

Lemma drain_files fn order st :
  (∀ d i png fn', d ∈ order →
     fst (process_disc W d) = Returned (i, png, Some fn') → fn' ≠ fn) →
  files (drain W order st) !! fn = files st !! fn.
Proof.
  revert st. induction order as [|d order IH]; intros st H; [reflexivity|].
  rewrite drain_cons, IH.
  - apply handle_future_files. intros i png fn'. apply H. left.
  - intros d' i png fn' Hd'. apply H. right. exact Hd'.
Qed.

End Sink.

(** ** Runs of [main] *)

Lemma filter_succeeds_total W (l : list disc) :
  (length (filter (fun d => succeeds W d = true) l)
   + length (filter (fun d => succeeds W d = false) l) = length l)%nat.
Proof.
  induction l as [|d l IH]; [reflexivity|].
  rewrite !filter_cons. destruct (succeeds W d).
  - rewrite decide_True by reflexivity. rewrite decide_False by discriminate.
    simpl. lia.
  - rewrite decide_False by discriminate. rewrite decide_True by reflexivity.
    simpl. lia.
Qed.

Lemma db_add_log st l : db (add_log st l) = db st.
Proof. reflexivity. Qed.

Lemma main_drains W db0 files0 order :
  order ≡ₚ get_discs_to_process db0 →
  db (main W db0 files0 order) = db (drain W order (initial_state db0 files0))
  ∧ files (main W db0 files0 order) = files (drain W order (initial_state db0 files0))
  ∧ success_count (main W db0 files0 order)
    = success_count (drain W order (initial_state db0 files0))
  ∧ fail_count (main W db0 files0 order)
    = fail_count (drain W order (initial_state db0 files0)).
Proof.
  intros Hp. unfold main. destruct (get_discs_to_process db0) as [|d0 discs].
  - apply Permutation_nil_r in Hp. subst order. repeat split.
  - repeat split.
Qed.

Lemma main_keeps_stored W i db0 files0 order :
  stored i db0 → stored i (db (main W db0 files0 order)).
Proof.
  intros H. unfold main. destruct (get_discs_to_process db0); [exact H|].
  rewrite db_add_log. apply drain_keeps_stored. exact H.
Qed.

Lemma reruns_keep_stored i runs st :
  stored i (db st) → stored i (db (fold_left rerun runs st)).
Proof.
  revert st. induction runs as [|[W order] runs IH]; intros st H; [exact H|].
  simpl. apply IH. unfold rerun. simpl. apply main_keeps_stored, H.
Qed.

(** C1. The selector returns the dictionaries of exactly the rows that
    have a non-empty weblink and a null or empty image, in table order;
    a row whose image column is populated is not among them; and once a
    task has succeeded in a run, no record with its id is a candidate of
    any later run. *)
Theorem selector_exact_and_rerun_idempotent (db0 : list row) :
  (∃ rows,
      get_discs_to_process db0 = map dict_of_row rows
      ∧ rows `sublist_of` db0
      ∧ (∀ r, r ∈ rows ↔ r ∈ db0 ∧ eligible r)
      ∧ (∀ r, img_populated r → r ∉ rows))
  ∧ (∀ (W : World) (files0 : gmap (list N) (list N)) (order : list disc)
       (d : disc) (runs : list (World * list disc)),
       order ≡ₚ get_discs_to_process db0 →
       d ∈ order →
       succeeds W d = true →
       ∀ d', d' ∈ get_discs_to_process
                   (db (fold_left rerun runs (main W db0 files0 order))) →
             disc_id d' ≠ disc_id d).
Proof.
  split.
  - exists (filter (fun r => selected r = true) db0).
    split; [reflexivity|]. split; [apply sublist_filter|]. split.
    + intros r. rewrite list_elem_of_filter, selected_eligible. tauto.
    + intros r Hr Hin. apply list_elem_of_filter in Hin as [Hsel _].
      rewrite (populated_not_selected r Hr) in Hsel. discriminate.
  - intros W files0 order d runs Hp Hd Hs d'.
    apply stored_not_selected. apply reruns_keep_stored.
    destruct (main_drains W db0 files0 order Hp) as (-> & _).
    apply drain_stores; assumption.
Qed.

(** C2. A task that delivers no image (the call raised, or returned
    [None] bytes) makes the sink write nothing: the step leaves catalog
    and backup directory as they are and counts a failure; with unique
    ids the record's row is the same after the whole run, its backup name
    holds what it held unless a delivering task has the same name, and the
    record is a candidate of the next run. *)
Theorem failed_task_writes_nothing (W : World) :
  (∀ d, delivers W d = false ↔
        fst (process_disc W d) = Raised
        ∨ fst (process_disc W d) = Returned (disc_id d, None, None))
  ∧ (∀ st d, delivers W d = false →
       db (handle_future W st d) = db st
       ∧ files (handle_future W st d) = files st
       ∧ success_count (handle_future W st d) = success_count st
       ∧ fail_count (handle_future W st d) = S (fail_count st))
  ∧ (∀ (db0 : list row) (files0 : gmap (list N) (list N))
       (order : list disc) (r : row),
       NoDup (map id db0) →
       order ≡ₚ get_discs_to_process db0 →
       r ∈ db0 →
       selected r = true →
       delivers W (dict_of_row r) = false →
       r ∈ db (main W db0 files0 order)
       ∧ (∀ fn, (∀ d i png fn', d ∈ order →
                   fst (process_disc W d) = Returned (i, png, Some fn') → fn' ≠ fn) →
                files (main W db0 files0 order) !! fn = files0 !! fn)
       ∧ dict_of_row r ∈ get_discs_to_process (db (main W db0 files0 order))).
Proof.
  split; [intros d; apply delivers_false|].
  split; [intros st d; apply handle_future_no_delivery|].
  intros db0 files0 order r Hnd Hp Hr Hsel Hfail.
  destruct (main_drains W db0 files0 order Hp) as (Edb & Efiles & _).
  assert (Hrow : r ∈ db (main W db0 files0 order)).
  { rewrite Edb. apply drain_keeps_row; [|exact Hr].
    intros d Hd Hdel E. rewrite Hp in Hd. unfold get_discs_to_process in Hd.
    apply list_elem_of_In, in_map_iff in Hd as (r' & <- & Hr').
    apply list_elem_of_In, list_elem_of_filter in Hr' as [_ Hr'].
    assert (r' = r) by (apply (NoDup_map_id_eq db0); assumption).
    subst r'. congruence. }
  split; [exact Hrow|]. split.
  - intros fn Hfn. rewrite Efiles. rewrite drain_files by exact Hfn. reflexivity.
  - unfold get_discs_to_process. apply list_elem_of_In, in_map, list_elem_of_In.
    apply list_elem_of_filter. split; assumption.
Qed.

(** C3. When all futures have completed, in whatever order, the two
    counters add up to the number of candidates; the success counter is
    the number of candidates whose two writes were performed and the
    failure counter the number of all others (a raised call included);
    a step performs the catalog update and the backup write exactly when
    it counts a success. *)
Theorem counts_account_for_every_candidate (W : World) :
  (∀ (db0 : list row) (files0 : gmap (list N) (list N)) (order : list disc),
     order ≡ₚ get_discs_to_process db0 →
     let st := main W db0 files0 order in
     let discs := get_discs_to_process db0 in
     (success_count st + fail_count st = length discs)%nat
     ∧ success_count st = length (filter (fun d => succeeds W d = true) discs)
     ∧ fail_count st = length (filter (fun d => succeeds W d = false) discs))
  ∧ (∀ d, fst (process_disc W d) = Raised → succeeds W d = false)
  ∧ (∀ s d, succeeds W d = true →
       ∃ png fn,
         fst (process_disc W d) = Returned (disc_id d, Some png, Some fn)
         ∧ db (handle_future W s d) = update_db_image (db s) (disc_id d) png
         ∧ files (handle_future W s d) = save_to_file (files s) fn png
         ∧ success_count (handle_future W s d) = S (success_count s)
         ∧ fail_count (handle_future W s d) = fail_count s)
  ∧ (∀ s d, succeeds W d = false →
       files (handle_future W s d) = files s
       ∧ success_count (handle_future W s d) = success_count s
       ∧ fail_count (handle_future W s d) = S (fail_count s)).
Proof.
  split; [|split; [|split]].
  - intros db0 files0 order Hp st discs.
    destruct (main_drains W db0 files0 order Hp) as (_ & _ & Es & Ef).
    destruct (drain_counts W order (initial_state db0 files0)) as [Cs Cf].
    assert (Hs : success_count st
                 = length (filter (fun d => succeeds W d = true) discs)).
    { subst st discs. rewrite Es, Cs. simpl. rewrite Hp. reflexivity. }
    assert (Hf : fail_count st
                 = length (filter (fun d => succeeds W d = false) discs)).
    { subst st discs. rewrite Ef, Cf. simpl. rewrite Hp. reflexivity. }
    split; [rewrite Hs, Hf; apply filter_succeeds_total|].
    split; [exact Hs | exact Hf].
  - intros d E. unfold succeeds. rewrite E. reflexivity.
  - intros s d Hd.
    destruct (handle_future_success W s d Hd) as (c & png & fn & E & ->).
    exists (c :: png), fn. repeat split. exact E.
  - intros s d. apply handle_future_failure.
Qed.

(** ** The reference extractor *)

Lemma extract_image_url_found W weblink status_code content src :
  requests_get W weblink = Response status_code content →
  raises_for_status status_code = false →
  select_one W content = Element (Some src) →
  src ≠ [] →
  fst (extract_image_url W weblink) = resolve_reference W weblink src.
Proof.
  intros Hget Hok Hsel Hsrc. unfold extract_image_url.
  rewrite Hget, Hok, Hsel. destruct src as [|c src]; [contradiction|]. simpl.
  destruct (resolve_reference W weblink (c :: src)); reflexivity.
Qed.

(** C4, as the program has it. For a reference found on a page: one that
    begins with two slashes gets the fixed prefix [https:], whatever the
    scheme of the page; one that begins with a single slash gets the
    page's scheme, [://] and the page's network location; any other is
    returned as it is. *)
Theorem reference_resolution
    (W : World) (weblink : pystr) (status_code : Z) (content src : list N) :
  requests_get W weblink = Response status_code content →
  raises_for_status status_code = false →
  select_one W content = Element (Some src) →
  src ≠ [] →
  (startswith (of_string "//") src = true →
     fst (extract_image_url W weblink) = Some (of_string "https:" ++ src))
  ∧ (startswith (of_string "//") src = false →
     startswith (of_string "/") src = true →
     ∀ parsed, urlparse W weblink = Some parsed →
       fst (extract_image_url W weblink)
       = Some (scheme parsed ++ of_string "://" ++ netloc parsed ++ src))
  ∧ (startswith (of_string "/") src = false →
     fst (extract_image_url W weblink) = Some src).
Proof.
  intros Hget Hok Hsel Hsrc.
  rewrite (extract_image_url_found W weblink status_code content src) by assumption.
  unfold resolve_reference. split; [|split].
  - intros ->. reflexivity.
  - intros -> -> parsed ->. reflexivity.
  - intros H1. rewrite H1.
    change (of_string "//") with (of_string "/" ++ of_string "/").
    rewrite (startswith_longer _ _ _ H1). reflexivity.
Qed.

(** The three references of the specification's example, on the page
    [https://example.com/path/page] and its neighbours. *)
Lemma reference_resolution_witness :
  fst (extract_image_url Demo.world (of_string "https://example.com/path/page"))
  = Some (of_string "https://cdn.example.com/x.webp")
  ∧ fst (extract_image_url Demo.world (of_string "https://example.com/path/rooted"))
    = Some (of_string "https://example.com/img/x.webp")
  ∧ fst (extract_image_url Demo.world (of_string "https://example.com/path/absolute"))
    = Some (of_string "https://other.com/x.webp").
Proof.
  split; [|split].
  - destruct (reference_resolution Demo.world
                (of_string "https://example.com/path/page") 200 [1]
                (of_string "//cdn.example.com/x.webp")
                eq_refl eq_refl eq_refl ltac:(discriminate)) as (H & _ & _).
    exact (H eq_refl).
  - destruct (reference_resolution Demo.world
                (of_string "https://example.com/path/rooted") 200 [2]
                (of_string "/img/x.webp")
                eq_refl eq_refl eq_refl ltac:(discriminate)) as (_ & H & _).
    exact (H eq_refl eq_refl _ eq_refl).
  - destruct (reference_resolution Demo.world
                (of_string "https://example.com/path/absolute") 200 [3]
                (of_string "https://other.com/x.webp")
                eq_refl eq_refl eq_refl ltac:(discriminate)) as (_ & _ & H).
    exact (H eq_refl).
Defined.

(** On a page served over plain http, a protocol-relative reference does
    not get the page's scheme. *)
Lemma reference_resolution_counterexample :
  py_urlparse (of_string "http://example.com/path/page")
  = Some {| scheme := of_string "http"; netloc := of_string "example.com" |}
  ∧ resolve_reference_spec
      {| scheme := of_string "http"; netloc := of_string "example.com" |}
      (of_string "//cdn.example.com/x.webp")
    = of_string "http://cdn.example.com/x.webp"
  ∧ fst (extract_image_url Demo.world (of_string "http://example.com/path/page"))
    = Some (of_string "https://cdn.example.com/x.webp")
  ∧ fst (extract_image_url Demo.world (of_string "http://example.com/path/page"))
    ≠ Some (resolve_reference_spec
              {| scheme := of_string "http"; netloc := of_string "example.com" |}
              (of_string "//cdn.example.com/x.webp")).
Proof.
  split; [reflexivity|]. split; [reflexivity|]. split; [reflexivity|].
  vm_compute. discriminate.
Qed.

(** C6, as the program has it. A page without the element, or with an
    element without a source, and a transport failure both make
    [extract_image_url] return [None]; the transport failure alone leaves
    an error in the log. The function returns in every case. *)
Theorem not_found_and_transport_failure (W : World) (weblink : pystr) :
  (not_found W weblink → extract_image_url W weblink = (None, []))
  ∧ (transport_failed W weblink →
     extract_image_url W weblink = (None, [(ERROR, FailedToExtract weblink)]))
  ∧ (∃ result l, extract_image_url W weblink = (result, l)).
Proof.
  split; [|split].
  - intros (status_code & content & Hget & Hok & Hsel).
    unfold extract_image_url. rewrite Hget, Hok.
    destruct Hsel as [-> | (src & -> & ->)]; reflexivity.
  - intros [Hget | (status_code & content & Hget & Hbad)];
      unfold extract_image_url; rewrite Hget; [reflexivity|].
    rewrite Hbad. reflexivity.
  - destruct (extract_image_url W weblink) as [result l]. eauto.
Qed.

Lemma not_found_and_transport_failure_witness :
  not_found Demo.world (of_string "https://example.com/path/bare")
  ∧ transport_failed Demo.world (of_string "https://example.com/path/missing")
  ∧ extract_image_url Demo.world (of_string "https://example.com/path/bare")
    = (None, [])
  ∧ extract_image_url Demo.world (of_string "https://example.com/path/missing")
    = (None, [(ERROR, FailedToExtract (of_string "https://example.com/path/missing"))]).
Proof.
  assert (H1 : not_found Demo.world (of_string "https://example.com/path/bare")).
  { exists 200%Z, [4]. split; [reflexivity|]. split; [reflexivity|].
    left. reflexivity. }
  assert (H2 : transport_failed Demo.world (of_string "https://example.com/path/missing")).
  { right. exists 404%Z, []. split; reflexivity. }
  split; [exact H1|]. split; [exact H2|]. split.
  - exact (proj1 (not_found_and_transport_failure Demo.world _) H1).
  - exact (proj1 (proj2 (not_found_and_transport_failure Demo.world _)) H2).
Defined.

(** A page without the markup and a page answered with status 404 give
    the same output: no function of the output tells them apart. *)
Lemma not_found_and_transport_failure_counterexample :
  not_found Demo.world (of_string "https://example.com/path/bare")
  ∧ transport_failed Demo.world (of_string "https://example.com/path/missing")
  ∧ fst (extract_image_url Demo.world (of_string "https://example.com/path/bare"))
    = fst (extract_image_url Demo.world (of_string "https://example.com/path/missing"))
  ∧ ¬ ∃ tell : option (list N) → bool,
        tell (fst (extract_image_url Demo.world
                     (of_string "https://example.com/path/bare"))) = true
        ∧ tell (fst (extract_image_url Demo.world
                       (of_string "https://example.com/path/missing"))) = false.
Proof.
  split.
  { exists 200%Z, [4]. split; [reflexivity|]. split; [reflexivity|].
    left. reflexivity. }
  split.
  { right. exists 404%Z, []. split; reflexivity. }
  split; [reflexivity|].
  intros (tell & H1 & H2).
  change (fst (extract_image_url Demo.world (of_string "https://example.com/path/bare")))
    with (@None (list N)) in H1.
  change (fst (extract_image_url Demo.world (of_string "https://example.com/path/missing")))
    with (@None (list N)) in H2.
  congruence.
Qed.

(** ** The image normaliser *)

(** C5, as the program has it. An image in mode RGBA or LA is saved as it
    is, without conversion (an LA image stays grey-scale with alpha); a
    palette image is converted to RGBA; an image in any mode other than
    these three and RGB is converted to RGB; an RGB image is saved as it
    is. The normalised image is saved in the PNG format with the optimize
    flag set, and the bytes of that are the result. *)
Theorem mode_normalization (W : World) (img : image) :
  (mode img = "RGBA"%string ∨ mode img = "LA"%string → normalize_mode W img = Some img)
  ∧ (mode img = "P"%string → normalize_mode W img = image_convert W img "RGBA")
  ∧ (mode img ∉ ["RGBA"; "LA"; "P"; "RGB"]%string →
     normalize_mode W img = image_convert W img "RGB")
  ∧ (mode img = "RGB"%string → normalize_mode W img = Some img)
  ∧ (∀ (img_url : pystr) (status_code : Z) (content : list N),
       requests_get W img_url = Response status_code content →
       raises_for_status status_code = false →
       image_open W content = Some img →
       fst (download_and_convert_image W img_url)
       = (normalize_mode W img ≫= fun img' => image_save W img' "PNG" true)).
Proof.
  unfold normalize_mode.
  split; [|split; [|split; [|split]]].
  - intros [-> | ->]; reflexivity.
  - intros ->. reflexivity.
  - intros Hm. rewrite bool_decide_eq_false_2.
    + destruct (String.eqb_spec (mode img) "RGB") as [E|E]; [|reflexivity].
      exfalso. apply Hm. rewrite E. repeat constructor.
    + intros Hin. apply Hm.
      repeat (apply elem_of_cons in Hin as [-> | Hin]; [repeat constructor|]).
      apply elem_of_nil in Hin. contradiction.
  - intros ->. reflexivity.
  - intros img_url status_code content Hget Hok Hopen.
    unfold download_and_convert_image. rewrite Hget, Hok, Hopen.
    fold (normalize_mode W img).
    destruct (normalize_mode W img) as [img'|]; simpl; [|reflexivity].
    destruct (image_save W img' "PNG" true); reflexivity.
Qed.

Lemma mode_normalization_witness :
  normalize_mode Demo.world {| mode := "P"; pixels := [3] |}
  = Some {| mode := "RGBA"; pixels := [3] |}
  ∧ normalize_mode Demo.world {| mode := "CMYK"; pixels := [1; 2; 3; 4] |}
    = Some {| mode := "RGB"; pixels := [1; 2; 3; 4] |}
  ∧ fst (download_and_convert_image Demo.world (of_string "https://example.com/img/x.webp"))
    = Some (of_string "PNG" ++ [3]).
Proof.
  split; [|split].
  - destruct (mode_normalization Demo.world {| mode := "P"; pixels := [3] |})
      as (_ & H & _).
    exact (H eq_refl).
  - destruct (mode_normalization Demo.world {| mode := "CMYK"; pixels := [1; 2; 3; 4] |})
      as (_ & _ & H & _).
    apply H. vm_compute. intros Hin.
    repeat (apply elem_of_cons in Hin as [Hin | Hin]; [discriminate|]).
    apply elem_of_nil in Hin. contradiction.
  - destruct (mode_normalization Demo.world {| mode := "P"; pixels := [3] |})
      as (_ & _ & _ & _ & H).
    exact (H (of_string "https://example.com/img/x.webp") 200%Z [11]
             eq_refl eq_refl eq_refl).
Defined.

(** A grey-scale image with alpha is not converted: what is saved is in
    mode LA, which is no truecolor mode. *)
Lemma mode_normalization_counterexample :
  image_open Demo.world [10] = Some {| mode := "LA"; pixels := [7; 255] |}
  ∧ normalize_mode Demo.world {| mode := "LA"; pixels := [7; 255] |}
    = Some {| mode := "LA"; pixels := [7; 255] |}
  ∧ truecolor_with_alpha "LA" = false
  ∧ ¬ ∃ img', normalize_mode Demo.world {| mode := "LA"; pixels := [7; 255] |}
              = Some img'
              ∧ truecolor_with_alpha (mode img') = true.
Proof.
  split; [reflexivity|]. split; [reflexivity|]. split; [reflexivity|].
  intros (img' & H & Hm). vm_compute in H. injection H as <-.
  vm_compute in Hm. discriminate.
Qed.

(** ** File names *)

(** C7. For a record with a manufacturer and a model, the file name
    [process_disc] returns is the sanitised manufacturer, an underscore,
    the sanitised model and [.png]; the sanitiser turns every reserved
    character and every maximal run of whitespace into one underscore and
    keeps every other character; the file name holds no reserved
    character and no whitespace. *)
Theorem backup_filename_sanitized (W : World) :
  (∀ (d : disc) (mf mo : list N) (i : Z) (png : option (list N)) (fn : list N),
     disc_manufacturer d = Some mf →
     disc_model d = Some mo →
     fst (process_disc W d) = Returned (i, png, Some fn) →
     fn = sanitize_filename mf ++ of_string "_"
          ++ sanitize_filename mo ++ of_string ".png"
     ∧ clean fn)
  ∧ (∀ a c b, is_reserved c = true →
       sanitize_filename (a ++ c :: b)
       = sanitize_filename a ++ underscore :: sanitize_filename b)
  ∧ (∀ a ws b,
       (∀ c, last a = Some c → is_space c = false) →
       ws ≠ [] → Forall (fun c => is_space c = true) ws →
       (∀ c, head b = Some c → is_space c = false) →
       sanitize_filename (a ++ ws ++ b)
       = sanitize_filename a ++ underscore :: sanitize_filename b)
  ∧ (∀ a c b, is_reserved c = false → is_space c = false →
       sanitize_filename (a ++ c :: b)
       = sanitize_filename a ++ c :: sanitize_filename b).
Proof.
  split.
  - intros d mf mo i png fn Hmf Hmo E.
    assert (Hfn : fn = backup_filename mf mo).
    { destruct (process_disc_cases W d) as [H|mf' mo' H1 H2|mf' mo' c p H1 H2];
        try discriminate.
      injection E as _ _ <-. congruence. }
    split; [exact Hfn | rewrite Hfn; apply backup_filename_clean].
  - split; [exact sanitize_reserved|]. split; [exact sanitize_maximal_run|].
    exact sanitize_plain.
Qed.

Lemma backup_filename_sanitized_witness :
  fst (process_disc Demo.world (dict_of_row (Demo.new_row 2 "Acme" "Wind/Cutter"
         (Demo.text "https://example.com/path/rooted") (VText []))))
  = Returned (2%Z, Some (of_string "PNG" ++ [3]), Some (of_string "Acme_Wind_Cutter.png"))
  ∧ clean (of_string "Acme_Wind_Cutter.png").
Proof.
  split; [reflexivity|].
  exact (proj2 (proj1 (backup_filename_sanitized Demo.world)
           (dict_of_row (Demo.new_row 2 "Acme" "Wind/Cutter"
              (Demo.text "https://example.com/path/rooted") (VText [])))
           (of_string "Acme") (of_string "Wind/Cutter") 2%Z
           (Some (of_string "PNG" ++ [3])) (of_string "Acme_Wind_Cutter.png")
           eq_refl eq_refl eq_refl)).
Defined.

(** C10. Sanitising twice is sanitising once: the first result is free of
    reserved characters and of whitespace, and such a string is left as
    it is. *)
Theorem sanitize_filename_idempotent (s : list N) :
  sanitize_filename (sanitize_filename s) = sanitize_filename s
  ∧ clean (sanitize_filename s)
  ∧ (∀ t, clean t → sanitize_filename t = t).
Proof.
  split; [apply sanitize_clean_id, sanitize_clean|].
  split; [apply sanitize_clean | exact sanitize_clean_id].
Qed.

Lemma sanitize_filename_idempotent_witness :
  sanitize_filename (of_string "a  b<c") = of_string "a_b_c"
  ∧ sanitize_filename (of_string "a_b_c") = of_string "a_b_c".
Proof.
  split; [reflexivity|].
  change (of_string "a_b_c") with (sanitize_filename (of_string "a  b<c")).
  exact (proj1 (sanitize_filename_idempotent (of_string "a  b<c"))).
Defined.

(** ** The catalog update *)

(** C8. [update_db_image] keeps the number and the order of the rows;
    a row with another id is unchanged; a row with the given id keeps its
    id, manufacturer, model, weblink and remaining columns, and its image
    becomes the given bytes. *)
Theorem update_db_image_frame (db0 : list row) (i : Z) (img_data : list N) :
  length (update_db_image db0 i img_data) = length db0
  ∧ ∀ (k : nat) (r : row), db0 !! k = Some r →
      ∃ r', update_db_image db0 i img_data !! k = Some r'
            ∧ id r' = id r ∧ manufacturer r' = manufacturer r
            ∧ model r' = model r ∧ weblink r' = weblink r
            ∧ other_columns r' = other_columns r
            ∧ (id r ≠ i → r' = r)
            ∧ (id r = i → img r' = VBlob img_data).
Proof.
  unfold update_db_image. split; [apply length_map|].
  intros k r Hk.
  exists (if (id r =? i)%Z then set_img r (VBlob img_data) else r).
  split.
  - revert k Hk. induction db0 as [|x db0 IH]; intros [|k] Hk; try discriminate.
    + injection Hk as ->. reflexivity.
    + simpl. apply IH. exact Hk.
  - destruct (Z.eqb_spec (id r) i) as [E|E]; repeat split; auto; contradiction.
Qed.

Lemma update_db_image_frame_witness :
  update_db_image Demo.catalog 2 [9] !! 1%nat
  = Some (Demo.new_row 2 "Acme" "Wind/Cutter"
            (Demo.text "https://example.com/path/rooted") (VBlob [9]))
  ∧ update_db_image Demo.catalog 2 [9] !! 0%nat = Demo.catalog !! 0%nat.
Proof.
  split; [reflexivity|].
  destruct (proj2 (update_db_image_frame Demo.catalog 2 [9]) 0%nat
              (Demo.new_row 1 "Acme" "Sky Rider"
                 (Demo.text "https://example.com/path/page") VNull) eq_refl)
    as (r' & Hk & _ & _ & _ & _ & _ & Hsame & _).
  rewrite Hk, Hsame; [reflexivity|].
  intros E. vm_compute in E. discriminate.
Defined.

(** ** The result of [process_disc] *)

(** C9. When [process_disc] returns, the first component is the id of the
    record, the bytes are [None] exactly when the file name is [None],
    bytes that are set are not empty and a file name that is set ends
    with [.png]; and it returns for every record that has a manufacturer
    and a model. *)
Theorem process_disc_triple (W : World) (d : disc) :
  (∀ i png fn, fst (process_disc W d) = Returned (i, png, fn) →
     i = disc_id d
     ∧ (png = None ↔ fn = None)
     ∧ (∀ b, png = Some b → b ≠ [])
     ∧ (∀ f, fn = Some f → endswith (of_string ".png") f = true))
  ∧ (is_Some (disc_manufacturer d) → is_Some (disc_model d) →
     ∃ t, fst (process_disc W d) = Returned t).
Proof.
  split.
  - intros i png fn E.
    destruct (process_disc_cases W d) as [H|mf mo H1 H2|mf mo c p H1 H2];
      try discriminate; injection E as <- <- <-.
    + split; [reflexivity|]. split; [tauto|]. split; discriminate.
    + split; [reflexivity|]. split; [split; discriminate|]. split.
      * intros b [= <-]. discriminate.
      * intros f [= <-]. unfold backup_filename. rewrite !app_assoc.
        apply endswith_app.
  - intros [mf Hmf] [mo Hmo].
    destruct (process_disc_cases W d) as [[H|H]|mf' mo' H1 H2|mf' mo' c p H1 H2];
      try congruence; eauto.
Qed.

Lemma process_disc_triple_witness :
  ∃ t, fst (process_disc Demo.world
              (dict_of_row (Demo.new_row 3 "Birdie" "Flat"
                 (Demo.text "https://example.com/path/bare") VNull)))
       = Returned t.
Proof.
  apply (proj2 (process_disc_triple Demo.world _)); eexists; reflexivity.
Defined.

(** ** The worked batch: five candidates, two of which succeed *)

Lemma demo_order :
  rev (get_discs_to_process Demo.catalog) ≡ₚ get_discs_to_process Demo.catalog.
Proof. symmetry. apply Permutation_rev. Qed.

Lemma selector_exact_and_rerun_idempotent_witness :
  Forall (fun d' => disc_id d' ≠ 1%Z)
    (get_discs_to_process
       (db (fold_left rerun
              [(Demo.world, get_discs_to_process Demo.catalog)]
              (main Demo.world Demo.catalog ∅
                 (rev (get_discs_to_process Demo.catalog)))))).
Proof.
  apply Forall_forall.
  refine (proj2 (selector_exact_and_rerun_idempotent Demo.catalog) Demo.world ∅
            (rev (get_discs_to_process Demo.catalog))
            (dict_of_row (Demo.new_row 1 "Acme" "Sky Rider"
               (Demo.text "https://example.com/path/page") VNull))
            [(Demo.world, get_discs_to_process Demo.catalog)]
            demo_order _ _).
  - apply list_elem_of_In. vm_compute. tauto.
  - reflexivity.
Defined.

Lemma failed_task_writes_nothing_witness :
  Demo.new_row 3 "Birdie" "Flat" (Demo.text "https://example.com/path/bare") VNull
  ∈ db (main Demo.world Demo.catalog ∅ (rev (get_discs_to_process Demo.catalog)))
  ∧ dict_of_row (Demo.new_row 3 "Birdie" "Flat"
                   (Demo.text "https://example.com/path/bare") VNull)
    ∈ get_discs_to_process
        (db (main Demo.world Demo.catalog ∅ (rev (get_discs_to_process Demo.catalog)))).
Proof.
  assert (Hnd : NoDup (map id Demo.catalog)).
  { apply (bool_decide_unpack _). vm_compute. exact I. }
  assert (Hr : Demo.new_row 3 "Birdie" "Flat"
                 (Demo.text "https://example.com/path/bare") VNull ∈ Demo.catalog).
  { apply list_elem_of_In. vm_compute. tauto. }
  destruct (proj2 (proj2 (failed_task_writes_nothing Demo.world)) Demo.catalog ∅
              (rev (get_discs_to_process Demo.catalog))
              (Demo.new_row 3 "Birdie" "Flat"
                 (Demo.text "https://example.com/path/bare") VNull)
              Hnd demo_order Hr eq_refl eq_refl) as (H1 & _ & H2).
  split; [exact H1 | exact H2].
Defined.

Lemma counts_account_for_every_candidate_witness :
  success_count (main Demo.world Demo.catalog ∅ (rev (get_discs_to_process Demo.catalog)))
  = 2%nat
  ∧ fail_count (main Demo.world Demo.catalog ∅ (rev (get_discs_to_process Demo.catalog)))
    = 3%nat
  ∧ length (get_discs_to_process Demo.catalog) = 5%nat.
Proof.
  pose proof (proj1 (counts_account_for_every_candidate Demo.world) Demo.catalog ∅
                (rev (get_discs_to_process Demo.catalog)) demo_order) as H.
  cbv zeta in H. destruct H as (_ & Hs & Hf).
  split; [rewrite Hs; reflexivity|]. split; [rewrite Hf; reflexivity | reflexivity].
Defined.

(** * Further properties of the program *)

(** ** The schema guard *)


Lemma lookup_map {A B} (f : A → B) (l : list A) (k : nat) :
  map f l !! k = f <$> (l !! k).
Proof.
  revert k. induction l as [|x l IH]; intros [|k]; simpl; try reflexivity.
  apply IH.
Qed.

Lemma sqlite_name_eq_refl a : sqlite_name_eq a a = true.
Proof. unfold sqlite_name_eq. apply bool_decide_eq_true. reflexivity. Qed.

Lemma img_name_in_columns_clash (cols : list (list N)) :
  img_name ∈ cols → existsb (sqlite_name_eq img_name) cols = true.
Proof.
  intros H. apply existsb_exists. exists img_name.
  split; [apply list_elem_of_In, H | apply sqlite_name_eq_refl].
Qed.

(** X1. The guard only ever adds: when it returns, the table has the column
    [img], the columns it had come first and in the same order, every
    record keeps its cells in front of at most one new [NULL] cell, and a
    second call changes nothing. *)
Theorem ensure_img_column_additive_idempotent
    (t t' : table) (m : schema_message) :
  ensure_img_column (Some t) = Returned (t', m) →
  img_name ∈ columns t'
  ∧ columns t `prefix_of` columns t'
  ∧ length (records t') = length (records t)
  ∧ (∀ k r, records t !! k = Some r →
       ∃ r', records t' !! k = Some r'
             ∧ (r' = r ∨ (r' = r ++ [VNull] ∧ img_name ∉ columns t)))
  ∧ (m = ImgColumnExists → t' = t)
  ∧ (m = AddingImgColumn →
       columns t' = columns t ++ [img_name]
       ∧ records t' = map (fun r => r ++ [VNull]) (records t))
  ∧ ensure_img_column (Some t') = Returned (t', ImgColumnExists).
Proof.
  unfold ensure_img_column. case_bool_decide as Hin; simpl.
  - intros [= <- <-].
    split; [exact Hin|]. split; [reflexivity|]. split; [reflexivity|].
    split; [intros k r Hk; exists r; auto|].
    split; [reflexivity|]. split; [discriminate|].
    rewrite bool_decide_eq_true_2 by exact Hin. reflexivity.
  - unfold alter_table_add_column.
    destruct (existsb (sqlite_name_eq img_name) (columns t)); [discriminate|].
    intros [= <- <-]. simpl.
    assert (Hnew : img_name ∈ columns t ++ [img_name]).
    { apply elem_of_app. right. apply list_elem_of_singleton. reflexivity. }
    split; [exact Hnew|]. split; [apply prefix_app_r; reflexivity|].
    split; [apply length_map|]. split.
    + intros k r Hk. exists (r ++ [VNull]). rewrite lookup_map, Hk.
      split; [reflexivity | right; split; [reflexivity | exact Hin]].
    + split; [discriminate|]. split; [split; reflexivity|].
      rewrite bool_decide_eq_true_2 by exact Hnew. reflexivity.
Qed.

Lemma ensure_img_column_additive_idempotent_witness :
  ensure_img_column
    (Some {| columns := [of_string "id"; of_string "weblink"];
             records := [[VInt 1; VText (of_string "https://example.com/path/page")]] |})
  = Returned ({| columns := [of_string "id"; of_string "weblink"; of_string "img"];
                 records := [[VInt 1; VText (of_string "https://example.com/path/page");
                              VNull]] |}, AddingImgColumn)
  ∧ ensure_img_column
      (Some {| columns := [of_string "id"; of_string "weblink"; of_string "img"];
               records := [[VInt 1; VText (of_string "https://example.com/path/page");
                            VNull]] |})
    = Returned ({| columns := [of_string "id"; of_string "weblink"; of_string "img"];
                   records := [[VInt 1; VText (of_string "https://example.com/path/page");
                                VNull]] |}, ImgColumnExists).
Proof.
  assert (E : ensure_img_column
    (Some {| columns := [of_string "id"; of_string "weblink"];
             records := [[VInt 1; VText (of_string "https://example.com/path/page")]] |})
  = Returned ({| columns := [of_string "id"; of_string "weblink"; of_string "img"];
                 records := [[VInt 1; VText (of_string "https://example.com/path/page");
                              VNull]] |}, AddingImgColumn)) by reflexivity.
  split; [exact E|].
  exact (proj2 (proj2 (proj2 (proj2 (proj2 (proj2
           (ensure_img_column_additive_idempotent _ _ _ E))))))).
Defined.



(** ** The selector and the catalog update together *)

Lemma selected_set_img_blob r c b : selected (set_img r (VBlob (c :: b))) = false.
Proof. apply populated_not_selected. split; discriminate. Qed.

Lemma dict_of_row_set_img r v : dict_of_row (set_img r v) = dict_of_row r.
Proof. reflexivity. Qed.

(** X3. Storing a non-empty image under an id takes exactly the records with
    that id out of the candidates and leaves the others, in their order. *)
Theorem candidates_after_update (db0 : list row) (i : Z) (c : N) (b : list N) :
  get_discs_to_process (update_db_image db0 i (c :: b))
  = filter (fun d => disc_id d ≠ i) (get_discs_to_process db0).
Proof.
  unfold get_discs_to_process, update_db_image.
  induction db0 as [|r db0 IH]; [reflexivity|].
  simpl. rewrite !filter_cons.
  destruct (Z.eqb_spec (id r) i) as [E|E].
  - rewrite selected_set_img_blob. rewrite decide_False by discriminate.
    rewrite IH. destruct (selected r); simpl.
    + rewrite filter_cons. simpl. rewrite decide_False; [reflexivity|].
      intros H. apply H. exact E.
    + reflexivity.
  - destruct (selected r) eqn:Hs; simpl.
    + rewrite IH, filter_cons. simpl. rewrite decide_True by exact E. reflexivity.
    + exact IH.
Qed.

(** X4. Two updates of the same id leave the second image; updates of
    different ids can be done in either order. *)
Theorem update_db_image_overwrites_and_commutes
    (db0 : list row) (i j : Z) (b1 b2 : list N) :
  update_db_image (update_db_image db0 i b1) i b2 = update_db_image db0 i b2
  ∧ (i ≠ j →
     update_db_image (update_db_image db0 i b1) j b2
     = update_db_image (update_db_image db0 j b2) i b1).
Proof.
  unfold update_db_image. rewrite !map_map. split.
  - apply map_ext. intros r. destruct (Z.eqb_spec (id r) i) as [E|E]; simpl.
    + destruct (Z.eqb_spec (id r) i); [reflexivity | contradiction].
    + destruct (Z.eqb_spec (id r) i); [contradiction | reflexivity].
  - intros Hne. apply map_ext. intros r.
    destruct (Z.eqb_spec (id r) i) as [Ei|Ei];
      destruct (Z.eqb_spec (id r) j) as [Ej|Ej]; simpl.
    + exfalso. apply Hne. congruence.
    + destruct (Z.eqb_spec (id r) i); [|contradiction].
      destruct (Z.eqb_spec (id r) j); [contradiction | reflexivity].
    + destruct (Z.eqb_spec (id r) i); [contradiction|].
      destruct (Z.eqb_spec (id r) j); [reflexivity | contradiction].
    + destruct (Z.eqb_spec (id r) i); [contradiction|].
      destruct (Z.eqb_spec (id r) j); [contradiction | reflexivity].
Qed.

Lemma update_db_image_overwrites_and_commutes_witness :
  update_db_image (update_db_image Demo.catalog 1 [7]) 2 [9]
  = update_db_image (update_db_image Demo.catalog 2 [9]) 1 [7].
Proof.
  apply (proj2 (update_db_image_overwrites_and_commutes Demo.catalog 1 2 [7] [9])).
  discriminate.
Defined.

(** ** The sanitiser's output length *)

Lemma length_sub_space_from b s : (length (sub_space_from b s) ≤ length s)%nat.
Proof.
  revert b. induction s as [|c s IH]; intros b; simpl; [lia|].
  destruct (is_space c); [destruct b|]; simpl;
    try (specialize (IH true); lia); specialize (IH false); lia.
Qed.

(** X5. Sanitising never lengthens a name, keeps a name without a run of two
    or more whitespace characters at its length, and gives the empty name
    only for the empty name. *)
Theorem sanitize_filename_length (s : list N) :
  (length (sanitize_filename s) ≤ length s)%nat
  ∧ (sanitize_filename s = [] ↔ s = [])
  ∧ (Forall (fun c => is_space c = false) s →
     length (sanitize_filename s) = length s).
Proof.
  unfold sanitize_filename, sub_space. split; [|split].
  - etransitivity; [apply length_sub_space_from|].
    unfold sub_reserved. rewrite length_map. lia.
  - split; [|intros ->; reflexivity].
    destruct s as [|c s]; [reflexivity|]. simpl.
    destruct (is_space (if is_reserved c then underscore else c)); discriminate.
  - intros H. rewrite sub_space_from_id.
    + unfold sub_reserved. apply length_map.
    + unfold sub_reserved. induction H as [|c s Hc _ IH]; simpl; constructor.
      * rewrite is_space_sub_reserved. exact Hc.
      * exact IH.
Qed.

Lemma sanitize_filename_length_witness :
  length (sanitize_filename (of_string "Wind/Cutter")) = 11%nat.
Proof.
  rewrite (proj2 (proj2 (sanitize_filename_length (of_string "Wind/Cutter")))).
  - reflexivity.
  - vm_compute. repeat constructor.
Defined.

(** ** The reference extractor, case by case *)

Lemma resolve_reference_suffix W weblink src u :
  resolve_reference W weblink src = Some u → src `suffix_of` u.
Proof.
  unfold resolve_reference.
  destruct (startswith (of_string "//") src).
  - intros [= <-]. exists (of_string "https:"). reflexivity.
  - destruct (startswith (of_string "/") src).
    + destruct (urlparse W weblink) as [p|]; [|discriminate].
      intros [= <-]. exists (scheme p ++ of_string "://" ++ netloc p).
      rewrite <- !app_assoc. reflexivity.
    + intros [= <-]. exists []. reflexivity.
Qed.

Lemma resolve_reference_none W weblink src :
  resolve_reference W weblink src = None ↔
  startswith (of_string "//") src = false
  ∧ startswith (of_string "/") src = true
  ∧ urlparse W weblink = None.
Proof.
  unfold resolve_reference.
  destruct (startswith (of_string "//") src); [split; [discriminate | intros [? _]; discriminate]|].
  destruct (startswith (of_string "/") src);
    [|split; [discriminate | intros (_ & ? & _); discriminate]].
  destruct (urlparse W weblink); split; try discriminate; auto.
  intros (_ & _ & ?). discriminate.
Qed.

Lemma extract_image_url_cases W weblink :
  extract_spec W weblink (extract_image_url W weblink).
Proof.
  unfold extract_image_url.
  destruct (requests_get W weblink) as [|status_code content] eqn:Hget.
  { apply extract_transport. left. exact Hget. }
  destruct (raises_for_status status_code) eqn:Hst.
  { apply extract_transport. right. eauto. }
  destruct (select_one W content) as [| |src] eqn:Hsel.
  - eapply extract_parser; eassumption.
  - apply extract_not_found. exists status_code, content. auto.
  - destruct src as [[|c src]|]; simpl.
    + apply extract_not_found. exists status_code, content.
      split; [exact Hget|]. split; [exact Hst|]. right. eauto.
    + assert (Hp : page_has_src W weblink (c :: src)).
      { exists status_code, content. repeat split; try assumption. discriminate. }
      destruct (resolve_reference W weblink (c :: src)) as [u|] eqn:Hr.
      * eapply extract_resolved; eassumption.
      * eapply extract_unresolved; eassumption.
    + apply extract_not_found. exists status_code, content.
      split; [exact Hget|]. split; [exact Hst|]. right. eauto.
Qed.

Lemma extract_image_url_some W weblink u l :
  extract_image_url W weblink = (Some u, l) →
  l = [] ∧ u ≠ []
  ∧ ∃ src, page_has_src W weblink src
           ∧ src `suffix_of` u
           ∧ resolve_reference W weblink src = Some u.
Proof.
  intros E. pose proof (extract_image_url_cases W weblink) as H.
  rewrite E in H. inversion H as [| | | |src u' Hp Hr]; subst.
  split; [reflexivity|].
  pose proof (resolve_reference_suffix _ _ _ _ Hr) as [pre ->].
  split.
  - destruct Hp as (_ & _ & _ & _ & _ & Hne).
    intros Hnil. apply app_eq_nil in Hnil as [_ ?]. contradiction.
  - exists src. split; [exact Hp|]. split; [eexists; reflexivity | exact Hr].
Qed.

Lemma extract_image_url_log_shape W weblink :
  snd (extract_image_url W weblink) = [(ERROR, FailedToExtract weblink)]
  ∨ snd (extract_image_url W weblink) = [].
Proof.
  destruct (extract_image_url_cases W weblink); simpl; auto.
Qed.

(** X6. A returned reference is the source attribute of the page's element,
    possibly with a prefix put in front: it is never empty, ends with
    that attribute, and nothing is logged for it. *)
Theorem extract_image_url_returns_reference
    (W : World) (weblink u : list N) (l : log) :
  extract_image_url W weblink = (Some u, l) →
  l = [] ∧ u ≠ []
  ∧ ∃ src, page_has_src W weblink src
           ∧ src `suffix_of` u
           ∧ resolve_reference W weblink src = Some u.
Proof. apply extract_image_url_some. Qed.

Lemma extract_image_url_returns_reference_witness :
  of_string "/img/x.webp" `suffix_of` of_string "https://example.com/img/x.webp"
  ∧ ∃ src, page_has_src Demo.world (of_string "https://example.com/path/rooted") src
           ∧ src `suffix_of` of_string "https://example.com/img/x.webp".
Proof.
  destruct (extract_image_url_returns_reference Demo.world
              (of_string "https://example.com/path/rooted")
              (of_string "https://example.com/img/x.webp") [] eq_refl)
    as (_ & _ & src & Hp & Hs & _).
  split; [exists (of_string "https://example.com"); reflexivity|].
  exists src. split; assumption.
Defined.

(** X7. An error is logged exactly when something raised inside the handler:
    the request or its status, the parser, or [urlparse] on a reference
    that begins with a single slash. The result is then [None]; in every
    other case the log is empty. *)
Theorem extract_image_url_error_log (W : World) (weblink : list N) :
  (snd (extract_image_url W weblink) = [(ERROR, FailedToExtract weblink)]
   ∨ snd (extract_image_url W weblink) = [])
  ∧ (snd (extract_image_url W weblink) ≠ [] →
     fst (extract_image_url W weblink) = None)
  ∧ (snd (extract_image_url W weblink) ≠ [] ↔
     transport_failed W weblink
     ∨ (∃ status_code content,
          requests_get W weblink = Response status_code content
          ∧ raises_for_status status_code = false
          ∧ select_one W content = ParserError)
     ∨ (∃ src, page_has_src W weblink src
               ∧ startswith (of_string "//") src = false
               ∧ startswith (of_string "/") src = true
               ∧ urlparse W weblink = None)).
Proof.
  pose proof (extract_image_url_cases W weblink) as H.
  assert (Hnf : ∀ src, not_found W weblink → page_has_src W weblink src → False).
  { intros src (s1 & c1 & G1 & _ & Hsel) (s2 & c2 & G2 & _ & Hel & Hne).
    rewrite G1 in G2. injection G2 as <- <-.
    destruct Hsel as [Hsel | (src' & Hsel & Ht)]; rewrite Hsel in Hel; [discriminate|].
    injection Hel as ->. destruct src; [contradiction | discriminate]. }
  assert (Hpt : ∀ src, page_has_src W weblink src → transport_failed W weblink → False).
  { intros src (s2 & c2 & G2 & Hok & _) [G1 | (s1 & c1 & G1 & Hbad)];
      rewrite G1 in G2; [discriminate|]. injection G2 as <- <-. congruence. }
  assert (Hnt : not_found W weblink → transport_failed W weblink → False).
  { intros (s2 & c2 & G2 & Hok & _) [G1 | (s1 & c1 & G1 & Hbad)];
      rewrite G1 in G2; [discriminate|]. injection G2 as <- <-. congruence. }
  inversion H as [Ht E|s c G Hok Hsel E|Hn E|src Hp Hr E|src u Hp Hr E];
    simpl.
  - split; [left; reflexivity|]. split; [reflexivity|].
    split; [intros _; left; exact Ht | discriminate].
  - split; [left; reflexivity|]. split; [reflexivity|].
    split; [intros _; right; left; eauto | discriminate].
  - split; [right; reflexivity|]. split; [intros []; reflexivity|].
    split; [intros []; reflexivity|].
    intros [Ht | [(s & c & G & Hok & Hsel) | (src & Hp & _)]]; exfalso.
    + exact (Hnt Hn Ht).
    + destruct Hn as (s1 & c1 & G1 & _ & Hsel1). rewrite G in G1.
      injection G1 as <- <-.
      destruct Hsel1 as [E1 | (? & E1 & _)]; rewrite E1 in Hsel; discriminate.
    + exact (Hnf src Hn Hp).
  - split; [left; reflexivity|]. split; [reflexivity|].
    split; [intros _ | discriminate]. right. right. exists src.
    apply resolve_reference_none in Hr. tauto.
  - split; [right; reflexivity|]. split; [intros []; reflexivity|].
    split; [intros []; reflexivity|].
    intros [Ht | [(s & c & G & Hok & Hsel) | (src' & Hp' & H1 & H2 & H3)]]; exfalso.
    + exact (Hpt src Hp Ht).
    + destruct Hp as (s1 & c1 & G1 & _ & Hel & _). rewrite G in G1.
      injection G1 as <- <-. rewrite Hel in Hsel. discriminate.
    + assert (src' = src).
      { destruct Hp as (s1 & c1 & G1 & _ & Hel & _).
        destruct Hp' as (s2 & c2 & G2 & _ & Hel' & _).
        rewrite G1 in G2. injection G2 as <- <-. rewrite Hel in Hel'.
        injection Hel' as ->. reflexivity. }
      subst src'.
      assert (resolve_reference W weblink src = None)
        by (apply resolve_reference_none; auto).
      congruence.
Qed.

(** The bracket of an address that is never closed makes [urlparse]
    raise: a host-relative reference on such a page is lost, with an
    error in the log. *)
Lemma extract_image_url_error_log_witness :
  snd (extract_image_url
         {| requests_get := fun _ => Response 200 [2];
            select_one := Demo.pages;
            urlparse := py_urlparse;
            image_open := Demo.pictures;
            image_convert := fun img _ => Some img;
            image_save := fun _ _ _ => None;
            db_write_raises := fun _ => false;
            file_write_raises := fun _ => false |}
         (of_string "http://[::1/page")) ≠ [].
Proof.
  apply (proj2 (proj2 (proj2 (extract_image_url_error_log _ _)))).
  right. right. exists (of_string "/img/x.webp").
  split; [|split; [reflexivity | split; reflexivity]].
  exists 200%Z, [2]. repeat split; try reflexivity. discriminate.
Defined.

(** X8. When the scheme [urlparse] gives does not itself begin with a slash,
    which no scheme does, a returned reference never begins with a slash:
    what goes to the downloader is not a relative reference. *)
Theorem extract_image_url_never_relative (W : World) (weblink u : list N) :
  (∀ parsed, urlparse W weblink = Some parsed →
             startswith (of_string "/") (scheme parsed) = false) →
  fst (extract_image_url W weblink) = Some u →
  startswith (of_string "/") u = false.
Proof.
  intros Hscheme E.
  destruct (extract_image_url W weblink) as [o l] eqn:Ex. simpl in E. subst o.
  apply extract_image_url_some in Ex as (_ & _ & src & _ & _ & Hr).
  unfold resolve_reference in Hr.
  destruct (startswith (of_string "//") src); [injection Hr as <-; reflexivity|].
  destruct (startswith (of_string "/") src) eqn:E1; [|congruence].
  destruct (urlparse W weblink) as [p|] eqn:Hp; [|discriminate].
  injection Hr as <-. specialize (Hscheme p eq_refl).
  destruct (scheme p) as [|c s]; [reflexivity|].
  simpl in *. exact Hscheme.
Qed.

Lemma extract_image_url_never_relative_witness :
  startswith (of_string "/") (of_string "https://example.com/img/x.webp") = false.
Proof.
  apply (extract_image_url_never_relative Demo.world
           (of_string "https://example.com/path/rooted")).
  - intros parsed [= <-]. reflexivity.
  - reflexivity.
Defined.

(** ** The downloader, case by case *)

Lemma download_and_convert_image_cases W img_url :
  (∃ png, converts_to W img_url png
          ∧ download_and_convert_image W img_url = (Some png, []))
  ∨ ((∀ png, ¬ converts_to W img_url png)
     ∧ download_and_convert_image W img_url
       = (None, [(ERROR, FailedToDownload img_url)])).
Proof.
  unfold download_and_convert_image, converts_to.
  destruct (requests_get W img_url) as [|st content] eqn:Hget.
  { right. split; [|reflexivity]. intros png (? & ? & ? & ? & ? & _). discriminate. }
  destruct (raises_for_status st) eqn:Hst.
  { right. split; [|reflexivity].
    intros png (? & ? & ? & ? & [= <- <-] & ? & _). congruence. }
  destruct (image_open W content) as [img|] eqn:Hopen.
  2:{ right. split; [|reflexivity].
      intros png (? & ? & ? & ? & [= <- <-] & _ & ? & _). congruence. }
  destruct (normalize_mode W img) as [img'|] eqn:Hnorm.
  2:{ right. split; [|reflexivity].
      intros png (? & ? & ? & ? & [= <- <-] & _ & Ho & Hn & _).
      rewrite Hopen in Ho. injection Ho as <-. congruence. }
  destruct (image_save W img' "PNG" true) as [png|] eqn:Hsave.
  - left. exists png. split; [|reflexivity].
    exists st, content, img, img'. auto.
  - right. split; [|reflexivity].
    intros png (? & ? & ? & ? & [= <- <-] & _ & Ho & Hn & Hs).
    rewrite Hopen in Ho. injection Ho as <-.
    rewrite Hnorm in Hn. injection Hn as <-. congruence.
Qed.

(** X9. The downloader returns bytes exactly when the request, its status,
    the decoding, the conversion and the encoding all succeed, and then
    the bytes are what the encoder gave; it logs one error exactly when
    it returns [None]. *)
Theorem download_and_convert_image_result (W : World) (img_url : list N) :
  (∀ png, fst (download_and_convert_image W img_url) = Some png ↔
          converts_to W img_url png)
  ∧ (fst (download_and_convert_image W img_url) = None ↔
     snd (download_and_convert_image W img_url)
     = [(ERROR, FailedToDownload img_url)])
  ∧ (is_Some (fst (download_and_convert_image W img_url)) ↔
     snd (download_and_convert_image W img_url) = []).
Proof.
  destruct (download_and_convert_image_cases W img_url)
    as [(png & Hc & ->) | (Hn & ->)]; simpl.
  - split; [|split].
    + intros png'. split.
      * intros [= <-]. exact Hc.
      * intros (s1 & c1 & i1 & j1 & G1 & _ & O1 & N1 & S1).
        destruct Hc as (s2 & c2 & i2 & j2 & G2 & _ & O2 & N2 & S2).
        rewrite G1 in G2. injection G2 as <- <-.
        rewrite O1 in O2. injection O2 as <-.
        rewrite N1 in N2. injection N2 as <-. congruence.
    + split; discriminate.
    + split; [reflexivity | eauto].
  - split; [|split].
    + intros png. split; [discriminate | intros H; destruct (Hn png H)].
    + split; reflexivity.
    + split; [intros [? ?]; discriminate | discriminate].
Qed.

Lemma download_and_convert_image_result_witness :
  converts_to Demo.world (of_string "https://example.com/img/x.webp")
    (of_string "PNG" ++ [3])
  ∧ snd (download_and_convert_image Demo.world (of_string "https://other.com/gone.webp"))
    = [(ERROR, FailedToDownload (of_string "https://other.com/gone.webp"))].
Proof.
  split.
  - apply (proj1 (proj1 (download_and_convert_image_result Demo.world
                           (of_string "https://example.com/img/x.webp")) _)).
    reflexivity.
  - apply (proj1 (proj1 (proj2 (download_and_convert_image_result Demo.world
                                  (of_string "https://other.com/gone.webp"))))).
    reflexivity.
Defined.

(** ** The mode that is saved *)

(** X10. When a conversion gives an image of the mode asked for, the image
    handed to the encoder is in mode RGB, RGBA or LA, whatever the mode
    of the source. *)
Theorem saved_mode (W : World) (img img' : image) :
  (∀ i m i', image_convert W i m = Some i' → mode i' = m) →
  normalize_mode W img = Some img' →
  mode img' ∈ ["RGB"; "RGBA"; "LA"]%string.
Proof.
  intros Hconv. unfold normalize_mode.
  case_bool_decide as Hin.
  - destruct (String.eqb_spec (mode img) "P") as [E|E].
    + intros H. apply Hconv in H. rewrite H. repeat constructor.
    + intros [= <-].
      apply elem_of_cons in Hin as [H1|Hin]; [rewrite H1; repeat constructor|].
      apply elem_of_cons in Hin as [H1|Hin]; [rewrite H1; repeat constructor|].
      apply elem_of_cons in Hin as [H1|Hin]; [contradiction|].
      apply elem_of_nil in Hin. contradiction.
  - destruct (String.eqb_spec (mode img) "RGB") as [E|E]; simpl.
    + intros [= <-]. rewrite E. repeat constructor.
    + intros H. apply Hconv in H. rewrite H. repeat constructor.
Qed.

Lemma saved_mode_witness :
  mode {| mode := "RGB"; pixels := [1; 2; 3; 4] |} ∈ ["RGB"; "RGBA"; "LA"]%string.
Proof.
  apply (saved_mode Demo.world {| mode := "CMYK"; pixels := [1; 2; 3; 4] |}).
  - intros i m i' [= <-]. reflexivity.
  - reflexivity.
Defined.

(** ** [process_disc] as the composition of its two stages *)

Lemma extract_image_url_log_entries W weblink x :
  x ∈ snd (extract_image_url W weblink) → x = (ERROR, FailedToExtract weblink).
Proof.
  destruct (extract_image_url_log_shape W weblink) as [-> | ->].
  - intros H. apply list_elem_of_singleton in H. exact H.
  - intros H. apply elem_of_nil in H. contradiction.
Qed.

Lemma download_and_convert_image_log_entries W img_url x :
  x ∈ snd (download_and_convert_image W img_url) →
  x = (ERROR, FailedToDownload img_url).
Proof.
  destruct (download_and_convert_image_cases W img_url)
    as [(png & _ & ->) | (_ & ->)]; simpl.
  - intros H. apply elem_of_nil in H. contradiction.
  - intros H. apply list_elem_of_singleton in H. exact H.
Qed.

Lemma extraction_stage_log_entries W d x :
  x ∈ snd (extraction_stage W d) → ∃ w, x = (ERROR, FailedToExtract w).
Proof.
  unfold extraction_stage. destruct (disc_weblink d) as [w|].
  - intros H. exists w. eapply extract_image_url_log_entries, H.
  - intros H. apply list_elem_of_singleton in H. eauto.
Qed.

Lemma extraction_stage_truthy W d u :
  fst (extraction_stage W d) = Some u → u ≠ [].
Proof.
  unfold extraction_stage. destruct (disc_weblink d) as [w|]; [|discriminate].
  destruct (extract_image_url W w) as [o l] eqn:E. simpl. intros ->.
  apply extract_image_url_some in E. tauto.
Qed.

(** [process_disc] for a record with manufacturer and model, by the
    results of its two stages. *)
Lemma process_disc_stages W d mf mo :
  disc_manufacturer d = Some mf → disc_model d = Some mo →
  process_disc W d
  = match fst (extraction_stage W d) with
    | None =>
        (Returned (disc_id d, None, None),
         [(INFO, Processing (disc_id d))] ++ snd (extraction_stage W d)
         ++ [(WARNING, NoImageUrlFound)])
    | Some u =>
        match fst (download_and_convert_image W u) with
        | Some (c :: png) =>
            (Returned (disc_id d, Some (c :: png), Some (backup_filename mf mo)),
             [(INFO, Processing (disc_id d))] ++ snd (extraction_stage W d)
             ++ snd (download_and_convert_image W u)
             ++ [(INFO, SuccessfullyProcessed (length (c :: png)))])
        | _ =>
            (Returned (disc_id d, None, None),
             [(INFO, Processing (disc_id d))] ++ snd (extraction_stage W d)
             ++ snd (download_and_convert_image W u))
        end
    end.
Proof.
  intros Hmf Hmo. unfold process_disc. rewrite Hmf, Hmo.
  fold (extraction_stage W d).
  pose proof (extraction_stage_truthy W d) as Ht.
  destruct (extraction_stage W d) as [[u|] l1]; simpl in *; [|reflexivity].
  destruct u as [|c0 u]; [exfalso; exact (Ht [] eq_refl eq_refl)|]. simpl.
  destruct (download_and_convert_image W (c0 :: u)) as [[[|c png]|] l2];
    reflexivity.
Qed.

(** X11. A task delivers exactly when the record has manufacturer, model and
    weblink, the extractor returns a reference for the weblink and the
    downloader returns non-empty bytes for that reference; what it
    returns is then the record's id, those bytes and the backup name. *)
Theorem process_disc_composes (W : World) (d : disc) :
  (delivers W d = true ↔
   ∃ mf mo w u c png,
     disc_manufacturer d = Some mf ∧ disc_model d = Some mo
     ∧ disc_weblink d = Some w
     ∧ fst (extract_image_url W w) = Some u
     ∧ fst (download_and_convert_image W u) = Some (c :: png))
  ∧ (∀ mf mo w u c png,
       disc_manufacturer d = Some mf → disc_model d = Some mo →
       disc_weblink d = Some w →
       fst (extract_image_url W w) = Some u →
       fst (download_and_convert_image W u) = Some (c :: png) →
       fst (process_disc W d)
       = Returned (disc_id d, Some (c :: png), Some (backup_filename mf mo))).
Proof.
  assert (Hfwd : ∀ mf mo w u c png,
       disc_manufacturer d = Some mf → disc_model d = Some mo →
       disc_weblink d = Some w →
       fst (extract_image_url W w) = Some u →
       fst (download_and_convert_image W u) = Some (c :: png) →
       fst (process_disc W d)
       = Returned (disc_id d, Some (c :: png), Some (backup_filename mf mo))).
  { intros mf mo w u c png Hmf Hmo Hw Hu Hp.
    rewrite (process_disc_stages W d mf mo Hmf Hmo).
    unfold extraction_stage. rewrite Hw, Hu, Hp. reflexivity. }
  split; [|exact Hfwd]. split.
  - unfold delivers. intros H.
    destruct (disc_manufacturer d) as [mf|] eqn:Hmf;
      [|unfold process_disc in H; rewrite Hmf in H; discriminate].
    destruct (disc_model d) as [mo|] eqn:Hmo;
      [|unfold process_disc in H; rewrite Hmf, Hmo in H; discriminate].
    rewrite (process_disc_stages W d mf mo Hmf Hmo) in H.
    unfold extraction_stage in H.
    destruct (disc_weblink d) as [w|] eqn:Hw; [|discriminate].
    destruct (fst (extract_image_url W w)) as [u|] eqn:Hu; [|discriminate].
    destruct (fst (download_and_convert_image W u)) as [[|c png]|] eqn:Hp;
      try discriminate.
    exists mf, mo, w, u, c, png. auto.
  - intros (mf & mo & w & u & c & png & Hmf & Hmo & Hw & Hu & Hp).
    unfold delivers. rewrite (Hfwd mf mo w u c png) by assumption.
    simpl. apply backup_filename_truthy.
Qed.

Lemma process_disc_composes_witness :
  fst (process_disc Demo.world
         (dict_of_row (Demo.new_row 1 "Acme" "Sky Rider"
            (Demo.text "https://example.com/path/page") VNull)))
  = Returned (1%Z, Some (of_string "PNG" ++ [7; 255]),
              Some (of_string "Acme_Sky_Rider.png")).
Proof.
  exact (proj2 (process_disc_composes Demo.world
                  (dict_of_row (Demo.new_row 1 "Acme" "Sky Rider"
                     (Demo.text "https://example.com/path/page") VNull)))
           (of_string "Acme") (of_string "Sky Rider")
           (of_string "https://example.com/path/page")
           (of_string "https://cdn.example.com/x.webp") 80 [78; 71; 7; 255]
           eq_refl eq_refl eq_refl eq_refl eq_refl).
Defined.

(** A log entry that is neither the first line nor one of the extraction
    stage is in what follows them. *)
Ltac after_first_stage H H1 :=
  apply elem_of_cons in H as [H|H]; [discriminate H|];
  apply elem_of_app in H as [H|H];
  [let w := fresh "w" in
   let Hw := fresh "Hw" in
   apply H1 in H as [w Hw]; discriminate Hw|].

(** X12. The call raises exactly when the record lacks its manufacturer or
    its model, and then before anything is logged. When it returns, the
    log begins with the line that names the record; the success line is
    in the log exactly when the task delivers, with the number of bytes
    returned; the warning is in the log exactly when the extraction gave
    no reference. *)
Theorem process_disc_log (W : World) (d : disc) :
  (fst (process_disc W d) = Raised ↔
   disc_manufacturer d = None ∨ disc_model d = None)
  ∧ (fst (process_disc W d) = Raised → snd (process_disc W d) = [])
  ∧ (∀ t, fst (process_disc W d) = Returned t →
          head (snd (process_disc W d)) = Some (INFO, Processing (disc_id d)))
  ∧ (∀ n, (INFO, SuccessfullyProcessed n) ∈ snd (process_disc W d) ↔
          delivers W d = true ∧ n = length (delivered_bytes W d))
  ∧ ((WARNING, NoImageUrlFound) ∈ snd (process_disc W d) ↔
     is_Some (disc_manufacturer d) ∧ is_Some (disc_model d)
     ∧ fst (extraction_stage W d) = None).
Proof.
  destruct (disc_manufacturer d) as [mf|] eqn:Hmf.
  2:{ assert (E : process_disc W d = (Raised, []))
        by (unfold process_disc; rewrite Hmf; reflexivity).
      unfold delivers, delivered_bytes. rewrite E. simpl.
      split; [split; auto|]. split; [reflexivity|]. split; [discriminate|].
      split.
      - intros n. split; [intros H; apply elem_of_nil in H; contradiction|].
        intros [? _]. discriminate.
      - split; [intros H; apply elem_of_nil in H; contradiction|].
        intros [[? ?] _]. discriminate. }
  destruct (disc_model d) as [mo|] eqn:Hmo.
  2:{ assert (E : process_disc W d = (Raised, []))
        by (unfold process_disc; rewrite Hmf, Hmo; reflexivity).
      unfold delivers, delivered_bytes. rewrite E. simpl.
      split; [split; auto|]. split; [reflexivity|]. split; [discriminate|].
      split.
      - intros n. split; [intros H; apply elem_of_nil in H; contradiction|].
        intros [? _]. discriminate.
      - split; [intros H; apply elem_of_nil in H; contradiction|].
        intros (_ & [? ?] & _). discriminate. }
  unfold delivers, delivered_bytes.
  rewrite (process_disc_stages W d mf mo Hmf Hmo).
  pose proof (extraction_stage_log_entries W d) as H1.
  assert (Hret : ∀ o : outcome (Z * option (list N) * option (list N)),
             (∃ t, o = Returned t) →
             (o = Raised ↔ Some mf = None ∨ Some mo = None)).
  { intros o [t ->]. split; [discriminate | intros [?|?]; discriminate]. }
  destruct (fst (extraction_stage W d)) as [u|] eqn:Hu.
  - pose proof (download_and_convert_image_log_entries W u) as H2.
    destruct (fst (download_and_convert_image W u)) as [[|c png]|] eqn:Hp; simpl.
    + split; [apply Hret; eauto|]. split; [discriminate|].
      split; [reflexivity|]. split.
      * intros n. split; [|intros [? _]; discriminate].
        intros H. after_first_stage H H1. apply H2 in H. discriminate.
      * split; [|intros (_ & _ & ?); discriminate].
        intros H. after_first_stage H H1. apply H2 in H. discriminate.
    + rewrite backup_filename_truthy. simpl.
      split; [apply Hret; eauto|]. split; [discriminate|].
      split; [reflexivity|]. split.
      * intros n. split.
        -- intros H. after_first_stage H H1.
           apply elem_of_app in H as [H|H]; [apply H2 in H; discriminate|].
           apply list_elem_of_singleton in H. injection H as ->. auto.
        -- intros [_ ->]. apply elem_of_cons. right.
           apply elem_of_app. right. apply elem_of_app. right.
           apply list_elem_of_singleton. reflexivity.
      * split; [|intros (_ & _ & ?); discriminate].
        intros H. after_first_stage H H1.
        apply elem_of_app in H as [H|H]; [apply H2 in H; discriminate|].
        apply list_elem_of_singleton in H. discriminate.
    + split; [apply Hret; eauto|]. split; [discriminate|].
      split; [reflexivity|]. split.
      * intros n. split; [|intros [? _]; discriminate].
        intros H. after_first_stage H H1. apply H2 in H. discriminate.
      * split; [|intros (_ & _ & ?); discriminate].
        intros H. after_first_stage H H1. apply H2 in H. discriminate.
  - simpl. split; [apply Hret; eauto|]. split; [discriminate|].
    split; [reflexivity|]. split.
    + intros n. split; [|intros [? _]; discriminate].
      intros H. after_first_stage H H1.
      apply list_elem_of_singleton in H. discriminate.
    + split; [intros _; eauto|]. intros _.
      apply elem_of_cons. right. apply elem_of_app. right.
      apply list_elem_of_singleton. reflexivity.
Qed.

Lemma process_disc_log_witness :
  (INFO, SuccessfullyProcessed 5)
  ∈ snd (process_disc Demo.world
           (dict_of_row (Demo.new_row 1 "Acme" "Sky Rider"
              (Demo.text "https://example.com/path/page") VNull))).
Proof.
  apply (proj2 (proj1 (proj2 (proj2 (proj2 (process_disc_log Demo.world _)))) 5%nat)).
  split; reflexivity.
Defined.

(** ** What one step and one run write *)

Lemma writes_catalog_spec W d :
  writes_catalog W d = true ↔
  delivers W d = true ∧ db_write_raises W (disc_id d) = false.
Proof.
  unfold writes_catalog, delivers.
  destruct (process_disc_cases W d) as [H|mf mo H1 H2|mf mo c png H1 H2]; simpl.
  - split; [discriminate | intros [? _]; discriminate].
  - split; [discriminate | intros [? _]; discriminate].
  - rewrite backup_filename_truthy. simpl.
    destruct (db_write_raises W (disc_id d)); simpl;
      [split; [discriminate | intros [_ ?]; discriminate] | split; auto].
Qed.

Lemma succeeds_spec W d :
  succeeds W d = true ↔
  writes_catalog W d = true ∧ file_write_raises W (delivered_name W d) = false.
Proof.
  unfold succeeds, writes_catalog, delivered_name.
  destruct (process_disc_cases W d) as [H|mf mo H1 H2|mf mo c png H1 H2]; simpl.
  - split; [discriminate | intros [? _]; discriminate].
  - split; [discriminate | intros [? _]; discriminate].
  - rewrite backup_filename_truthy. simpl.
    destruct (db_write_raises W (disc_id d)); simpl;
      [split; [discriminate | intros [? _]; discriminate]|].
    destruct (file_write_raises W (backup_filename mf mo)); simpl;
      [split; [discriminate | intros [_ ?]; discriminate] | split; auto].
Qed.

Lemma delivered_bytes_nonempty W d :
  delivers W d = true → ∃ c b, delivered_bytes W d = c :: b.
Proof.
  unfold delivers, delivered_bytes.
  destruct (process_disc_cases W d) as [H|mf mo H1 H2|mf mo c png H1 H2]; simpl;
    try discriminate.
  intros _. eauto.
Qed.

Lemma delivered_name_spec W d mf mo :
  delivers W d = true →
  disc_manufacturer d = Some mf → disc_model d = Some mo →
  delivered_name W d = backup_filename mf mo.
Proof.
  unfold delivers, delivered_name.
  destruct (process_disc_cases W d) as [H|mf' mo' H1 H2|mf' mo' c png H1 H2]; simpl;
    try discriminate.
  intros _ E1 E2. congruence.
Qed.

Lemma handle_future_db_exact W st d :
  db (handle_future W st d)
  = if writes_catalog W d
    then update_db_image (db st) (disc_id d) (delivered_bytes W d)
    else db st.
Proof.
  unfold handle_future, writes_catalog, delivered_bytes.
  destruct (process_disc_cases W d) as [H|mf mo H1 H2|mf mo c png H1 H2]; simpl;
    try reflexivity.
  rewrite backup_filename_truthy. simpl.
  destruct (db_write_raises W (disc_id d)); simpl; [reflexivity|].
  destruct (file_write_raises W (backup_filename mf mo)); reflexivity.
Qed.

Lemma handle_future_files_exact W st d :
  files (handle_future W st d)
  = if succeeds W d
    then save_to_file (files st) (delivered_name W d) (delivered_bytes W d)
    else files st.
Proof.
  unfold handle_future, succeeds, delivered_bytes, delivered_name.
  destruct (process_disc_cases W d) as [H|mf mo H1 H2|mf mo c png H1 H2]; simpl;
    try reflexivity.
  rewrite backup_filename_truthy. simpl.
  destruct (db_write_raises W (disc_id d)); simpl; [reflexivity|].
  destruct (file_write_raises W (backup_filename mf mo)); reflexivity.
Qed.

Lemma handle_future_log_exact W st d :
  main_log (handle_future W st d)
  = main_log st
    ++ (if raises_in_main W d then [(ERROR, ErrorProcessingDisc (disc_id d))]
        else []).
Proof.
  unfold handle_future, raises_in_main.
  destruct (process_disc_cases W d) as [H|mf mo H1 H2|mf mo c png H1 H2]; simpl;
    try reflexivity.
  rewrite backup_filename_truthy. simpl.
  destruct (db_write_raises W (disc_id d)); simpl; [reflexivity|].
  destruct (file_write_raises W (backup_filename mf mo)); simpl;
    [reflexivity | symmetry; apply app_nil_r].
Qed.

Lemma row_after_cons W d order r :
  row_after W (d :: order) r
  = row_after W order
      (if writes_catalog W d && (id r =? disc_id d)%Z
       then set_img r (VBlob (delivered_bytes W d)) else r).
Proof. reflexivity. Qed.

Lemma drain_db_exact W order st :
  db (drain W order st) = map (row_after W order) (db st).
Proof.
  revert st. induction order as [|d order IH]; intros st.
  - simpl. symmetry. apply map_id.
  - rewrite drain_cons, IH, handle_future_db_exact.
    destruct (writes_catalog W d) eqn:Hw.
    + unfold update_db_image. rewrite map_map. apply map_ext. intros r.
      rewrite row_after_cons, Hw. reflexivity.
    + apply map_ext. intros r. rewrite row_after_cons, Hw. reflexivity.
Qed.

Lemma row_after_not_written W order r :
  written_by W order (id r) = false → row_after W order r = r.
Proof.
  revert r. induction order as [|d order IH]; intros r H; [reflexivity|].
  unfold written_by in H. simpl in H. apply orb_false_iff in H as [H1 H2].
  rewrite row_after_cons.
  replace (id r =? disc_id d)%Z with (disc_id d =? id r)%Z by apply Z.eqb_sym.
  rewrite H1. apply IH. exact H2.
Qed.

(** A row some task writes ends with the bytes of the last such task. *)
Lemma row_after_written W order r :
  written_by W order (id r) = true →
  ∃ d, d ∈ order ∧ writes_catalog W d = true ∧ disc_id d = id r
       ∧ row_after W order r = set_img r (VBlob (delivered_bytes W d)).
Proof.
  revert r. induction order as [|d order IH]; intros r H; [discriminate|].
  rewrite row_after_cons.
  destruct (written_by W order (id r)) eqn:Hrest.
  - destruct (writes_catalog W d && (id r =? disc_id d)%Z).
    + destruct (IH (set_img r (VBlob (delivered_bytes W d))) Hrest)
        as (d' & Hd' & Hw & Hid & E).
      exists d'. split; [right; exact Hd'|]. split; [exact Hw|].
      split; [exact Hid | exact E].
    + destruct (IH r Hrest) as (d' & Hd' & Hw & Hid & E).
      exists d'. split; [right; exact Hd'|]. auto.
  - unfold written_by in H, Hrest. simpl in H. fold (written_by W order (id r)) in H.
    unfold written_by in H. rewrite Hrest, orb_false_r in H.
    apply andb_true_iff in H as [Hw Hid]. apply Z.eqb_eq in Hid.
    exists d. split; [left|]. split; [exact Hw|]. split; [exact Hid|].
    rewrite Hw. simpl.
    replace (id r =? disc_id d)%Z with true by (symmetry; apply Z.eqb_eq; auto).
    apply row_after_not_written. exact Hrest.
Qed.

Lemma main_db W db0 files0 order :
  db (main W db0 files0 order) = db0
  ∨ db (main W db0 files0 order) = map (row_after W order) db0.
Proof.
  unfold main. destruct (get_discs_to_process db0); [left; reflexivity|].
  right. rewrite db_add_log, drain_db_exact. reflexivity.
Qed.

Lemma main_db_perm W db0 files0 order :
  order ≡ₚ get_discs_to_process db0 →
  db (main W db0 files0 order) = map (row_after W order) db0.
Proof.
  intros Hp. destruct (main_drains W db0 files0 order Hp) as (-> & _).
  apply drain_db_exact.
Qed.

(** X13. A run, in whatever order its tasks complete, keeps the number and the
    order of the rows and every cell outside the image column; the image
    of a row changes only to the non-empty bytes delivered by a task of
    the run that has the row's id and whose update did not raise. *)
Theorem run_changes_only_images
    (W : World) (db0 : list row) (files0 : gmap (list N) (list N))
    (order : list disc) :
  length (db (main W db0 files0 order)) = length db0
  ∧ ∀ (k : nat) (r : row), db0 !! k = Some r →
      ∃ r', db (main W db0 files0 order) !! k = Some r'
            ∧ id r' = id r ∧ manufacturer r' = manufacturer r
            ∧ model r' = model r ∧ weblink r' = weblink r
            ∧ other_columns r' = other_columns r
            ∧ (img r' = img r
               ∨ ∃ d c b, d ∈ order ∧ delivers W d = true
                          ∧ db_write_raises W (disc_id d) = false
                          ∧ disc_id d = id r
                          ∧ delivered_bytes W d = c :: b
                          ∧ img r' = VBlob (c :: b)).
Proof.
  destruct (main_db W db0 files0 order) as [-> | ->].
  - split; [reflexivity|]. intros k r Hk. exists r. repeat split; auto.
  - split; [apply length_map|]. intros k r Hk.
    exists (row_after W order r). rewrite lookup_map, Hk.
    split; [reflexivity|].
    destruct (written_by W order (id r)) eqn:Hw.
    + destruct (row_after_written W order r Hw) as (d & Hd & Hwd & Hid & ->).
      repeat split. right.
      apply writes_catalog_spec in Hwd as [Hdel Hraise].
      destruct (delivered_bytes_nonempty W d Hdel) as (c & b & E).
      exists d, c, b. rewrite E. repeat split; assumption.
    + rewrite (row_after_not_written W order r Hw). repeat split. left. reflexivity.
Qed.

Lemma run_changes_only_images_witness :
  db (main Demo.world Demo.catalog ∅ (rev (get_discs_to_process Demo.catalog)))
     !! 5%nat
  = Some (Demo.new_row 6 "Acme" "Done"
            (Demo.text "https://example.com/path/absolute") (VBlob [1; 2])).
Proof.
  destruct (proj2 (run_changes_only_images Demo.world Demo.catalog ∅
                     (rev (get_discs_to_process Demo.catalog))) 5%nat
              (Demo.new_row 6 "Acme" "Done"
                 (Demo.text "https://example.com/path/absolute") (VBlob [1; 2]))
              eq_refl) as (r' & Hk & _).
  rewrite Hk. f_equal.
  assert (E : db (main Demo.world Demo.catalog ∅
                    (rev (get_discs_to_process Demo.catalog))) !! 5%nat
              = Some (Demo.new_row 6 "Acme" "Done"
                        (Demo.text "https://example.com/path/absolute")
                        (VBlob [1; 2]))) by reflexivity.
  rewrite E in Hk. injection Hk as <-. reflexivity.
Defined.

(** ** Runs over a catalog with unique ids *)

Lemma filter_ext_elem {A} (P Q : A → Prop)
    `{!∀ x, Decision (P x), !∀ x, Decision (Q x)} (l : list A) :
  (∀ x, x ∈ l → (P x ↔ Q x)) → filter P l = filter Q l.
Proof.
  induction l as [|a l IH]; intros Hext; [reflexivity|].
  rewrite !filter_cons.
  assert (Ha : P a ↔ Q a) by (apply Hext; left).
  assert (Hl : filter P l = filter Q l)
    by (apply IH; intros x Hx; apply Hext; right; exact Hx).
  destruct (decide (P a)) as [p|p], (decide (Q a)) as [q|q];
    rewrite Hl; try reflexivity; tauto.
Qed.

Lemma elem_of_candidates db0 d :
  d ∈ get_discs_to_process db0 ↔
  ∃ r, r ∈ db0 ∧ selected r = true ∧ d = dict_of_row r.
Proof.
  unfold get_discs_to_process. split.
  - intros H. apply list_elem_of_In, in_map_iff in H as (r & <- & Hr).
    apply list_elem_of_In, list_elem_of_filter in Hr as [Hs Hr]. eauto.
  - intros (r & Hr & Hs & ->). apply list_elem_of_In, in_map, list_elem_of_In.
    apply list_elem_of_filter. auto.
Qed.

Lemma written_by_true W order i :
  written_by W order i = true ↔
  ∃ d, d ∈ order ∧ writes_catalog W d = true ∧ disc_id d = i.
Proof.
  unfold written_by. rewrite existsb_exists. split.
  - intros (d & Hd & H). apply andb_true_iff in H as [Hw Hi].
    apply Z.eqb_eq in Hi. exists d. split; [apply list_elem_of_In, Hd | auto].
  - intros (d & Hd & Hw & Hi). exists d. split; [apply list_elem_of_In, Hd|].
    rewrite Hw. apply Z.eqb_eq in Hi. exact Hi.
Qed.

(** With unique ids, the only task with the id of a row is the row's own. *)
Lemma own_task_only db0 order r d :
  NoDup (map id db0) → order ≡ₚ get_discs_to_process db0 →
  r ∈ db0 → d ∈ order → disc_id d = id r →
  d = dict_of_row r ∧ selected r = true.
Proof.
  intros Hnd Hp Hr Hd Hid. rewrite Hp in Hd.
  apply elem_of_candidates in Hd as (r' & Hr' & Hs & ->).
  assert (r' = r) by (apply (NoDup_map_id_eq db0); assumption).
  subst r'. auto.
Qed.

Lemma written_by_own_task W db0 order r :
  NoDup (map id db0) → order ≡ₚ get_discs_to_process db0 → r ∈ db0 →
  written_by W order (id r) = selected r && writes_catalog W (dict_of_row r).
Proof.
  intros Hnd Hp Hr.
  destruct (written_by W order (id r)) eqn:Hw.
  - apply written_by_true in Hw as (d & Hd & Hwd & Hid).
    destruct (own_task_only db0 order r d Hnd Hp Hr Hd Hid) as [-> ->].
    rewrite Hwd. reflexivity.
  - destruct (selected r) eqn:Hs; [|reflexivity].
    destruct (writes_catalog W (dict_of_row r)) eqn:Hwd; [|reflexivity].
    assert (H : written_by W order (id r) = true).
    { apply written_by_true. exists (dict_of_row r).
      split; [|split; [exact Hwd | reflexivity]].
      rewrite Hp. apply elem_of_candidates. eauto. }
    congruence.
Qed.





(** ** The candidates of the next run *)

Lemma candidates_after_tasks W order db0 :
  get_discs_to_process (map (row_after W order) db0)
  = filter (fun d => written_by W order (disc_id d) = false)
      (get_discs_to_process db0).
Proof.
  unfold get_discs_to_process.
  induction db0 as [|r db0 IH]; [reflexivity|].
  simpl. rewrite !filter_cons.
  destruct (written_by W order (id r)) eqn:Hw.
  - destruct (row_after_written W order r Hw) as (d & _ & Hwd & _ & ->).
    apply writes_catalog_spec in Hwd as [Hdel _].
    destruct (delivered_bytes_nonempty W d Hdel) as (c & b & ->).
    rewrite selected_set_img_blob. rewrite decide_False by discriminate.
    rewrite IH. destruct (decide (selected r = true)); [|reflexivity].
    simpl. rewrite filter_cons. simpl. rewrite Hw.
    rewrite decide_False by discriminate. reflexivity.
  - rewrite (row_after_not_written W order r Hw).
    destruct (decide (selected r = true)); [|exact IH].
    simpl. rewrite filter_cons. simpl. rewrite Hw.
    rewrite decide_True by reflexivity. rewrite IH. reflexivity.
Qed.

Lemma candidates_after_main W db0 files0 order :
  order ≡ₚ get_discs_to_process db0 →
  get_discs_to_process (db (main W db0 files0 order))
  = filter (fun d => written_by W order (disc_id d) = false)
      (get_discs_to_process db0).
Proof.
  intros Hp. rewrite (main_db_perm W db0 files0 order Hp).
  apply candidates_after_tasks.
Qed.

(** X15. After a run the candidates are those of before, in their order,
    without the records whose id some task of the run has stored an image
    under; with unique ids these are the records whose own task did not
    store one. *)
Theorem candidates_of_next_run
    (W : World) (db0 : list row) (files0 : gmap (list N) (list N))
    (order : list disc) :
  order ≡ₚ get_discs_to_process db0 →
  get_discs_to_process (db (main W db0 files0 order))
  = filter (fun d => written_by W order (disc_id d) = false)
      (get_discs_to_process db0)
  ∧ (NoDup (map id db0) →
     get_discs_to_process (db (main W db0 files0 order))
     = filter (fun d => writes_catalog W d = false) (get_discs_to_process db0)).
Proof.
  intros Hp. rewrite (candidates_after_main W db0 files0 order Hp).
  split; [reflexivity|].
  intros Hnd. apply filter_ext_elem. intros d Hd.
  apply elem_of_candidates in Hd as (r & Hr & Hs & ->). simpl.
  rewrite (written_by_own_task W db0 order r Hnd Hp Hr), Hs. reflexivity.
Qed.

Lemma candidates_of_next_run_witness :
  map disc_id
    (get_discs_to_process
       (db (main Demo.world Demo.catalog ∅ (rev (get_discs_to_process Demo.catalog)))))
  = [3; 4; 5]%Z.
Proof.
  assert (Hnd : NoDup (map id Demo.catalog)).
  { apply (bool_decide_unpack _). vm_compute. exact I. }
  rewrite (proj2 (candidates_of_next_run Demo.world Demo.catalog ∅
                    (rev (get_discs_to_process Demo.catalog)) demo_order) Hnd).
  reflexivity.
Defined.

(** ** A second run in the same world *)

Lemma succeeds_writes W d : succeeds W d = true → writes_catalog W d = true.
Proof. intros H. apply succeeds_spec in H. tauto. Qed.




(** ** The backup directory after a run *)







(** ** Writes that raise *)

(** X19. When the catalog update of a delivering task raises, the backup file
    is not written either: the step changes neither store, counts a
    failure and logs the error. *)
Theorem catalog_write_failure_skips_backup (W : World) (st : state) (d : disc) :
  delivers W d = true →
  db_write_raises W (disc_id d) = true →
  db (handle_future W st d) = db st
  ∧ files (handle_future W st d) = files st
  ∧ success_count (handle_future W st d) = success_count st
  ∧ fail_count (handle_future W st d) = S (fail_count st)
  ∧ main_log (handle_future W st d)
    = main_log st ++ [(ERROR, ErrorProcessingDisc (disc_id d))].
Proof.
  intros Hdel Hraise.
  assert (Hw : writes_catalog W d = false).
  { destruct (writes_catalog W d) eqn:E; [|reflexivity].
    apply writes_catalog_spec in E as [_ E]. congruence. }
  assert (Hs : succeeds W d = false).
  { destruct (succeeds W d) eqn:E; [|reflexivity].
    apply succeeds_writes in E. congruence. }
  rewrite handle_future_db_exact, handle_future_files_exact,
    handle_future_log_exact, Hw, Hs.
  destruct (handle_future_failure W st d Hs) as (_ & -> & ->).
  repeat split. f_equal.
  unfold raises_in_main. revert Hdel. unfold delivers.
  destruct (process_disc_cases W d) as [H|mf mo H1 H2|mf mo c png H1 H2];
    try (intros Hdel; discriminate Hdel).
  simpl. intros Hdel. rewrite Hdel, Hraise. reflexivity.
Qed.

Lemma catalog_write_failure_skips_backup_witness :
  files (handle_future (Faults.world true false)
           (initial_state Demo.catalog ∅) Faults.sky_rider)
  = ∅.
Proof.
  exact (proj1 (proj2 (catalog_write_failure_skips_backup
                         (Faults.world true false)
                         (initial_state Demo.catalog ∅) Faults.sky_rider
                         eq_refl eq_refl))).
Defined.



(** ** What [main] reports *)





(** ** The loader's conversions *)

Lemma lstrip_spaces f ws s :
  Forall (fun c => f c = true) ws → lstrip f (ws ++ s) = lstrip f s.
Proof.
  induction 1 as [|c ws Hc _ IH]; simpl; [reflexivity|].
  rewrite Hc. exact IH.
Qed.

Lemma lstrip_all f s :
  Forall (fun c => f c = true) s → lstrip f s = [].
Proof.
  intros H. rewrite <- (app_nil_r s). rewrite lstrip_spaces by exact H. reflexivity.
Qed.

Lemma lstrip_app_kept f s t :
  lstrip f s ≠ [] → lstrip f (s ++ t) = lstrip f s ++ t.
Proof.
  induction s as [|c s IH]; simpl; [contradiction|].
  destruct (f c); [exact IH | reflexivity].
Qed.

Lemma lstrip_nil_all f s :
  lstrip f s = [] → Forall (fun c => f c = true) s.
Proof.
  induction s as [|c s IH]; simpl; [constructor|].
  destruct (f c) eqn:E; [|discriminate].
  intros H. constructor; [exact E | apply IH, H].
Qed.

Lemma rstrip_spaces f s ws :
  Forall (fun c => f c = true) ws → rstrip f (s ++ ws) = rstrip f s.
Proof.
  intros H. unfold rstrip. rewrite rev_app_distr.
  rewrite lstrip_spaces; [reflexivity|].
  apply Forall_forall. intros c Hc. rewrite Forall_forall in H. apply H.
  apply list_elem_of_In. apply list_elem_of_In, in_rev in Hc. exact Hc.
Qed.

Lemma py_strip_padded ws1 v ws2 :
  Forall (fun c => is_space c = true) ws1 →
  Forall (fun c => is_space c = true) ws2 →
  py_strip (ws1 ++ v ++ ws2) = py_strip v.
Proof.
  intros H1 H2. unfold py_strip. rewrite lstrip_spaces by exact H1.
  destruct (lstrip is_space v) as [|c t] eqn:E.
  - rewrite lstrip_all; [reflexivity|].
    apply Forall_app. split; [apply lstrip_nil_all, E | exact H2].
  - rewrite lstrip_app_kept by (rewrite E; discriminate).
    rewrite E. apply rstrip_spaces, H2.
Qed.

Lemma py_strip_nil_of_empty v : truthy v = false → py_strip v = [].
Proof. destruct v; [reflexivity | discriminate]. Qed.

Lemma parse_with_padding (f : list N → option Z) ws1 v ws2 :
  Forall (fun c => is_space c = true) ws1 →
  Forall (fun c => is_space c = true) ws2 →
  (if negb (truthy (ws1 ++ v ++ ws2)) || bool_decide (py_strip (ws1 ++ v ++ ws2) = [])
   then None else f (py_strip (ws1 ++ v ++ ws2)))
  = (if negb (truthy v) || bool_decide (py_strip v = []) then None
     else f (py_strip v)).
Proof.
  intros H1 H2. rewrite (py_strip_padded ws1 v ws2 H1 H2).
  destruct (decide (py_strip v = [])) as [E|E].
  - rewrite !bool_decide_eq_true_2 by exact E. rewrite !orb_true_r. reflexivity.
  - rewrite !bool_decide_eq_false_2 by exact E. rewrite !orb_false_r.
    assert (Hv : truthy v = true).
    { destruct v; [exfalso; apply E; reflexivity | reflexivity]. }
    assert (Hp : truthy (ws1 ++ v ++ ws2) = true).
    { destruct v as [|c v]; [discriminate|].
      destruct ws1; reflexivity. }
    rewrite Hv, Hp. reflexivity.
Qed.

(** X22. [parse_int] and [parse_float] give [None] for a missing field, for
    the empty string and for a string of whitespace only, without
    converting anything; whitespace around a value does not change the
    result; and the conversion is applied to a string that neither begins
    nor ends with whitespace. *)
Theorem parse_number_ignores_blanks (C : Conversions) :
  parse_int C None = None ∧ parse_float C None = None
  ∧ (∀ ws, Forall (fun c => is_space c = true) ws →
           parse_int C (Some ws) = None ∧ parse_float C (Some ws) = None)
  ∧ (∀ ws1 v ws2,
       Forall (fun c => is_space c = true) ws1 →
       Forall (fun c => is_space c = true) ws2 →
       parse_int C (Some (ws1 ++ v ++ ws2)) = parse_int C (Some v)
       ∧ parse_float C (Some (ws1 ++ v ++ ws2)) = parse_float C (Some v))
  ∧ (∀ v n, parse_int C (Some v) = Some n →
            py_int C (py_strip v) = Some n ∧ py_strip v ≠ [])
  ∧ (∀ v x, parse_float C (Some v) = Some x →
            py_float C (py_strip v) = Some x ∧ py_strip v ≠ []).
Proof.
  split; [reflexivity|]. split; [reflexivity|]. split; [|split; [|split]].
  - intros ws H. unfold parse_int, parse_float.
    assert (E : py_strip ws = []).
    { unfold py_strip. rewrite lstrip_all by exact H. reflexivity. }
    rewrite bool_decide_eq_true_2 by exact E. rewrite orb_true_r. auto.
  - intros ws1 v ws2 H1 H2. unfold parse_int, parse_float.
    split; apply parse_with_padding; assumption.
  - intros v n. unfold parse_int.
    destruct (negb (truthy v)); simpl; [discriminate|].
    case_bool_decide; [discriminate | auto].
  - intros v x. unfold parse_float.
    destruct (negb (truthy v)); simpl; [discriminate|].
    case_bool_decide; [discriminate | auto].
Qed.

Lemma parse_number_ignores_blanks_witness :
  parse_int {| py_int := fun s => Some (Z.of_nat (length s)); py_float := fun _ => None |}
    (Some (of_string "  1999 "))
  = Some 4%Z.
Proof.
  assert (H1 : Forall (fun c => is_space c = true) (of_string "  "))
    by (repeat constructor).
  assert (H2 : Forall (fun c => is_space c = true) (of_string " "))
    by (repeat constructor).
  exact (eq_trans
           (proj1 (proj1 (proj2 (proj2 (proj2
              (parse_number_ignores_blanks
                 {| py_int := fun s => Some (Z.of_nat (length s));
                    py_float := fun _ => None |}))))
              (of_string "  ") (of_string "1999") (of_string " ") H1 H2))
           eq_refl).
Defined.
